(** * Kingpin actors: groups, ELB actors and packagecloud actors

    A shallow embedding of [kingpin/actors/group.py], [kingpin/actors/aws/elb.py]
    and [kingpin/actors/packagecloud.py], with the properties of the actor
    engine stated over it.

    Conventions.
    - A Python call that either returns a value or raises is an [outcome].
    - A tornado coroutine is seen from its caller: calling it runs it up to
      its first suspension, the IOLoop resumes it a number of times, and its
      future resolves to an [outcome].
    - Calls to the outside world (boto, the packagecloud REST client, the
      clock, sleeps) are recorded in a trace of [call]s; what the outside world
      answers is a parameter of each definition.
    - Loops that Python writes as [while True] take a bound on the number of
      iterations explored; [None] means that the loop is still running when
      the bound is reached. *)

From Stdlib Require Import String Ascii.
From Stdlib Require Import List ZArith Bool Lia Arith PeanoNat.
From Stdlib Require Import Floats Uint63.
From Stdlib Require DecimalString DecimalNat DecimalFacts.
From Stdlib Require Import Sorted Permutation.
Import ListNotations.

Set Warnings "-register-all".

Open Scope string_scope.
Open Scope list_scope.
Open Scope nat_scope.

(** ** Exceptions and outcomes *)

(** The exception classes the three files raise or let through. *)
Inductive exn : Type :=
| InvalidOptions              (* kingpin.actors.exceptions.InvalidOptions *)
| InvalidCredentials          (* kingpin.actors.exceptions.InvalidCredentials *)
| UnrecoverableActorFailure   (* kingpin.actors.exceptions.UnrecoverableActorFailure *)
| ValueError
| TypeError
| RetryError                  (* retrying.RetryError *)
| ExternalError (code : nat)  (* anything raised by boto or the REST client *).

Inductive outcome (A : Type) : Type :=
| Returned (a : A)
| Raised (e : exn).

Arguments Returned {A} a.
Arguments Raised {A} e.

Definition exn_eq_dec (x y : exn) : {x = y} + {x <> y}.
Proof. decide equality. apply Nat.eq_dec. Defined.

Definition outcome_bool_eq_dec (x y : outcome bool) : {x = y} + {x <> y}.
Proof. decide equality; [apply Bool.bool_dec | apply exn_eq_dec]. Defined.

(** Python's builtin [all] over a list of booleans. *)
Definition py_all (l : list bool) : bool := forallb (fun b => b) l.

(** * Group actors ([kingpin/actors/group.py]) *)

Module Group.

(** ** Children as coroutines *)

(** What a group sees of [act.execute()]: the number of times the coroutine
    suspends before its future resolves, and what the future resolves to. *)
Record coroutine : Type := Coroutine {
  suspensions : nat;
  result : outcome bool
}.

(** Observable steps of a group's execution.  Children are numbered by their
    position in [self._actions]. *)
Inductive event : Type :=
| LogBeginning (i : nat)              (* Sync: 'Beginning "%s"..' *)
| LogFinished (i : nat) (ret : bool)  (* Sync: 'Finished "%s", success?.. %s' *)
| Started (i : nat)                   (* act.execute() is called on child i *)
| Resumed (i : nat)                   (* the IOLoop resumes child i *)
| Completed (i : nat) (r : outcome bool)   (* child i's future resolves *)
| Awaiting                            (* Async: [yield executions] *)
| GroupReturned (r : outcome bool)    (* the group's own future resolves *).

Definition event_eq_dec (x y : event) : {x = y} + {x <> y}.
Proof.
  decide equality;
    try apply Nat.eq_dec; try apply Bool.bool_dec; apply outcome_bool_eq_dec.
Defined.

(** A future as the group holds it: still suspended, with [k + 1]
    resumptions to go before it resolves to [r], or resolved. *)
Inductive future : Type :=
| Suspended (k : nat) (r : outcome bool)
| Done (r : outcome bool).

(** Calling [act.execute()] on child [i]: the coroutine starts at once and
    runs to its first suspension; one that never suspends is already resolved
    when the call returns.  An exception raised in the coroutine is stored in
    the future, it is not raised by the call. *)
Definition call_execute (i : nat) (act : coroutine) : list event * future :=
  match suspensions act with
  | O => ([Started i; Completed i (result act)], Done (result act))
  | S k => ([Started i], Suspended k (result act))
  end.

(** The IOLoop resumes the coroutine behind a future once. *)
Definition resume (i : nat) (f : future) : list event * future :=
  match f with
  | Suspended O r => ([Resumed i; Completed i r], Done r)
  | Suspended (S k) r => ([Resumed i], Suspended k r)
  | Done r => ([], Done r)
  end.

(** [yield f] on a single future of child [i]: the caller stays suspended
    until the future is resolved, and then gets its outcome.  [resumptions]
    are the steps of a coroutine with [k + 1] resumptions to go. *)
Fixpoint resumptions (i k : nat) (r : outcome bool) : list event :=
  match k with
  | O => [Resumed i; Completed i r]
  | S k' => Resumed i :: resumptions i k' r
  end.

Definition wait_for (i : nat) (f : future) : list event * outcome bool :=
  match f with
  | Done r => ([], r)
  | Suspended k r => (resumptions i k r, r)
  end.

(** ** Sync._run_actions *)

(** The [for] loop of [Sync._run_actions], entered at child number [i] with
    the list [returns] accumulated so far.  [ret = yield act.execute()] waits
    for the child's future; an exception raised by the child leaves the
    loop. *)
Fixpoint Sync_loop (i : nat) (actions : list coroutine) (returns : list bool)
  : list event * outcome (list bool) :=
  match actions with
  | [] => ([], Returned returns)
  | act :: rest =>
      let (started, f) := call_execute i act in
      let (waited, r) := wait_for i f in
      let tr := LogBeginning i :: started ++ waited in
      match r with
      | Raised e => (tr, Raised e)
      | Returned ret =>
          let (tr', out) := Sync_loop (S i) rest (returns ++ [ret]) in
          (tr ++ LogFinished i ret :: tr', out)
      end
  end.

Definition Sync_run_actions (actions : list coroutine)
  : list event * option (outcome (list bool)) :=
  let (tr, out) := Sync_loop 0 actions [] in (tr, Some out).

(** ** Async._run_actions *)

(** First loop of [Async._run_actions]: every child's [execute()] is called
    and the future it returns is appended to [executions]. *)
Fixpoint Async_start (i : nat) (actions : list coroutine)
  : list event * list future :=
  match actions with
  | [] => ([], [])
  | act :: rest =>
      let (started, f) := call_execute i act in
      let (tr, executions) := Async_start (S i) rest in
      (started ++ tr, f :: executions)
  end.

(** Positions of the futures that are still suspended, counted from [i]. *)
Fixpoint pending (i : nat) (executions : list future) : list nat :=
  match executions with
  | [] => []
  | Done _ :: rest => pending (S i) rest
  | Suspended _ _ :: rest => i :: pending (S i) rest
  end.

(** Resume the coroutine behind the future at position [j] of the list.
    [idx] is the child's number, for the events; [j] counts down to it. *)
Fixpoint resume_at (idx j : nat) (executions : list future)
  : list event * list future :=
  match executions with
  | [] => ([], [])
  | f :: rest =>
      match j with
      | O => let (ev, f') := resume idx f in (ev, f' :: rest)
      | S j' => let (ev, rest') := resume_at idx j' rest in (ev, f :: rest')
      end
  end.

(** [yield executions], the waiting part: the IOLoop resumes suspended
    children one at a time until every future is resolved.  Which child is
    resumed at tick [t] is the scheduler's choice, [pick t], read modulo the
    number of suspended children.  [fuel] bounds the number of ticks. *)
Fixpoint Async_join (pick : nat -> nat) (fuel t : nat)
    (executions : list future) : list event * list future :=
  match fuel with
  | O => ([], executions)
  | S fuel' =>
      match pending 0 executions with
      | [] => ([], executions)
      | p :: ps =>
          let j := nth (pick t mod List.length (p :: ps)) (p :: ps) p in
          let (ev, executions') := resume_at j j executions in
          let (tr, final) := Async_join pick fuel' (S t) executions' in
          (ev ++ tr, final)
      end
  end.

(** The outcomes of a list of futures, when all are resolved. *)
Fixpoint outcomes (executions : list future) : option (list (outcome bool)) :=
  match executions with
  | [] => Some []
  | Suspended _ _ :: _ => None
  | Done r :: rest =>
      match outcomes rest with
      | Some rs => Some (r :: rs)
      | None => None
      end
  end.

(** [yield executions], the value: the list of the children's results in
    list order, or the exception of the first child in the list that raised
    (tornado's handling of a yielded list: it waits for every future even
    when one of them holds an exception). *)
Fixpoint gather (outs : list (outcome bool)) : outcome (list bool) :=
  match outs with
  | [] => Returned []
  | Raised e :: _ => Raised e
  | Returned b :: rest =>
      match gather rest with
      | Returned bs => Returned (b :: bs)
      | Raised e => Raised e
      end
  end.

Definition total_suspensions (actions : list coroutine) : nat :=
  list_sum (map suspensions actions).

(** [Async._run_actions].  The join is explored for as many ticks as the
    children have suspensions in total; [None] would mean that some future is
    still unresolved then. *)
Definition Async_run_actions (pick : nat -> nat) (actions : list coroutine)
  : list event * option (outcome (list bool)) :=
  let (started, executions) := Async_start 0 actions in
  let (joined, final) :=
    Async_join pick (total_suspensions actions) 0 executions in
  (started ++ Awaiting :: joined, option_map gather (outcomes final)).

(** ** BaseGroupActor._execute *)

Inductive group_mode : Type := Sync | Async.

(** [self._run_actions()], as the subclass implements it. *)
Definition _run_actions (mode : group_mode) (pick : nat -> nat)
    (actions : list coroutine) : list event * option (outcome (list bool)) :=
  match mode with
  | Sync => Sync_run_actions actions
  | Async => Async_run_actions pick actions
  end.

(** [ret = yield self._run_actions(); raise gen.Return(all(ret))]. *)
Definition _execute (mode : group_mode) (pick : nat -> nat)
    (actions : list coroutine) : list event * option (outcome bool) :=
  match _run_actions mode pick actions with
  | (tr, None) => (tr, None)
  | (tr, Some (Raised e)) => (tr ++ [GroupReturned (Raised e)], Some (Raised e))
  | (tr, Some (Returned ret)) =>
      (tr ++ [GroupReturned (Returned (py_all ret))], Some (Returned (py_all ret)))
  end.

(** ** Construction of the tree *)

(** A child specification of the JSON script: the actor-type identifier, the
    description, the options, and for a group the list under the ['acts']
    option. *)
Inductive config : Type :=
| Config (actor : string) (desc : string) (options : list (string * string))
         (acts : list config).

(** An actor object: [_desc], [_dry], and either the body of a concrete
    actor or the [_actions] of a group. *)
Inductive actor : Type :=
| Leaf (desc : string) (dry : bool) (body : coroutine)
| GroupActor (mode : group_mode) (desc : string) (dry : bool)
             (actions : list actor).

Definition actor_dry (a : actor) : bool :=
  match a with
  | Leaf _ dry _ => dry
  | GroupActor _ _ dry _ => dry
  end.

Definition actor_desc (a : actor) : string :=
  match a with
  | Leaf desc _ _ => desc
  | GroupActor _ desc _ _ => desc
  end.

(** Every actor below [a] in the tree. *)
Fixpoint descendants (a : actor) : list actor :=
  match a with
  | Leaf _ _ _ => []
  | GroupActor _ _ _ actions =>
      flat_map (fun child => child :: descendants child) actions
  end.

(** [BaseGroupActor._build_actions]: the loop
    [for act in self._options['acts']: actions.append(utils.get_actor(act, dry=self._dry))],
    entered with the [actions] built so far.  An exception raised by
    [get_actor] leaves the loop and the method. *)
Definition _build_actions (get_actor : config -> bool -> outcome actor)
    (_dry : bool) : list config -> list actor -> outcome (list actor) :=
  fix loop (acts : list config) (actions : list actor) : outcome (list actor) :=
    match acts with
    | [] => Returned actions
    | act :: rest =>
        match get_actor act _dry with
        | Raised e => Raised e
        | Returned a => loop rest (actions ++ [a])
        end
    end.

(** [BaseGroupActor.__init__].  [super().__init__] (kingpin.actors.base, not
    part of the sources) is taken to store the description, the options and
    the [dry] argument as [self._dry]; then [self._actions] is built. *)
Definition BaseGroupActor_init (get_actor : config -> bool -> outcome actor)
    (mode : group_mode) (desc : string) (acts : list config) (dry : bool)
  : outcome actor :=
  let _dry := dry in
  match _build_actions get_actor _dry acts [] with
  | Raised e => Raised e
  | Returned _actions => Returned (GroupActor mode desc _dry _actions)
  end.

(** The group classes by their actor-type identifier. *)
Definition group_class (actor : string) : option group_mode :=
  if String.eqb actor "group.Sync" then Some Sync
  else if String.eqb actor "group.Async" then Some Async
  else None.

Section Construction.

(** The constructors of the concrete (non-group) actor classes, by
    actor-type identifier: given the description, the options and the dry
    flag they validate the options and either raise or give the actor's
    body.  An unknown identifier raises. *)
Variable leaf_init :
  string -> string -> list (string * string) -> bool -> outcome coroutine.

(** Modelled from the spec: [kingpin.actors.utils.get_actor], which is not
    part of the sources.  Section 6: the engine resolves the
    actor-type-identifier to a constructor and recursively builds nested
    Groups the same way; the constructor is called with the description,
    the options and the [dry] flag it was given. *)
Fixpoint get_actor (cfg : config) (dry : bool) : outcome actor :=
  match cfg with
  | Config actor desc options acts =>
      match group_class actor with
      | Some mode => BaseGroupActor_init get_actor mode desc acts dry
      | None =>
          match leaf_init actor desc options dry with
          | Raised e => Raised e
          | Returned body => Returned (Leaf desc dry body)
          end
      end
  end.

End Construction.

(** ** Execution of a constructed tree *)

Definition is_resumed (ev : event) : bool :=
  match ev with
  | Resumed _ => true
  | _ => false
  end.

(** A run seen as a coroutine by the enclosing group: it was resumed as often
    as its children were. *)
Definition as_coroutine (run : list event * option (outcome bool)) : coroutine :=
  {| suspensions := List.length (filter is_resumed (fst run));
     result := match snd run with
               | Some r => r
               | None => Raised RetryError
               end |}.

(** [act.execute()] as its parent sees it. *)
Fixpoint behaviour (pick : nat -> nat) (a : actor) : coroutine :=
  match a with
  | Leaf _ _ body => body
  | GroupActor mode _ _ actions =>
      as_coroutine (_execute mode pick (map (behaviour pick) actions))
  end.

(** [execute()] on the root of a tree. *)
Definition execute (pick : nat -> nat) (a : actor)
  : list event * option (outcome bool) :=
  match a with
  | Leaf _ _ body => ([], Some (result body))
  | GroupActor mode _ _ actions =>
      _execute mode pick (map (behaviour pick) actions)
  end.

(** Modelled from the spec: the caller of the engine (section 2), which
    assembles the whole tree from the script and only then executes it. *)
Definition deploy (leaf_init : string -> string -> list (string * string) ->
                               bool -> outcome coroutine)
    (pick : nat -> nat) (script : config) (dry : bool)
  : list event * option (outcome bool) :=
  match get_actor leaf_init script dry with
  | Raised e => ([], Some (Raised e))
  | Returned a => execute pick a
  end.

(** ** Facts about single children *)

(** What child [i] does from the call of [execute()] to its completion. *)
Definition child_run (i : nat) (act : coroutine) : list event :=
  Started i :: repeat (Resumed i) (suspensions act) ++ [Completed i (result act)].

Definition is_child_event (ev : event) : bool :=
  match ev with
  | Started _ | Resumed _ | Completed _ _ => true
  | _ => false
  end.

Lemma resumptions_repeat (i k : nat) (r : outcome bool) :
  resumptions i k r = repeat (Resumed i) (S k) ++ [Completed i r].
Proof.
  induction k as [|k IH]; simpl; [reflexivity|].
  rewrite IH. reflexivity.
Qed.

Lemma call_then_wait (i : nat) (act : coroutine) :
  fst (call_execute i act) ++ fst (wait_for i (snd (call_execute i act)))
  = child_run i act
  /\ snd (wait_for i (snd (call_execute i act))) = result act.
Proof.
  unfold call_execute, child_run.
  destruct (suspensions act) as [|k]; simpl; [split; reflexivity|].
  rewrite resumptions_repeat. split; reflexivity.
Qed.

Lemma filter_child_run (i : nat) (act : coroutine) :
  filter is_child_event (child_run i act) = child_run i act.
Proof.
  unfold child_run. simpl. f_equal.
  rewrite filter_app. simpl. f_equal.
  induction (suspensions act) as [|k IH]; simpl; [reflexivity|].
  now rewrite IH.
Qed.

(** ** Facts about Sync *)

(** One iteration of the loop of [Sync._run_actions], for a child that
    returns [ret]. *)
Definition Sync_iteration (i : nat) (act : coroutine) (ret : bool) : list event :=
  LogBeginning i :: child_run i act ++ [LogFinished i ret].

Fixpoint Sync_iterations (i : nat) (actions : list coroutine) (rets : list bool)
  : list event :=
  match actions, rets with
  | act :: actions', ret :: rets' =>
      Sync_iteration i act ret ++ Sync_iterations (S i) actions' rets'
  | _, _ => []
  end.

Lemma Sync_loop_all_return :
  forall (actions : list coroutine) (rets : list bool) (i : nat) (returns : list bool),
    map result actions = map Returned rets ->
    Sync_loop i actions returns
    = (Sync_iterations i actions rets, Returned (returns ++ rets)).
Proof.
  induction actions as [|act actions IH]; intros rets i returns H.
  - destruct rets; [|discriminate]. simpl. now rewrite app_nil_r.
  - destruct rets as [|ret rets]; [discriminate|].
    simpl in H. injection H as Hact Hrest.
    cbn [Sync_loop Sync_iterations].
    destruct (call_then_wait i act) as [Htr Hres].
    destruct (call_execute i act) as [started f]; simpl in Htr, Hres.
    destruct (wait_for i f) as [waited r]; simpl in Htr, Hres.
    subst r. rewrite Hact.
    rewrite (IH rets (S i) (returns ++ [ret]) Hrest).
    unfold Sync_iteration. rewrite <- Htr, <- (app_assoc returns).
    f_equal. cbn [app]. f_equal. now rewrite <- !app_assoc.
Qed.

(** X3. In the loop of [Sync._run_actions] a child whose [execute] raises
    (rather than returning [False]) ends the loop: the trace stops at that
    child's completion, the children after it are never started, and the
    exception is the outcome. *)
Theorem Sync_loop_raise :
  forall (before : list coroutine) (rets : list bool) (act : coroutine)
         (after : list coroutine) (e : exn) (i : nat) (returns : list bool),
    map result before = map Returned rets ->
    result act = Raised e ->
    Sync_loop i (before ++ act :: after) returns
    = (Sync_iterations i before rets
         ++ LogBeginning (i + List.length before) :: child_run (i + List.length before) act,
       Raised e).
Proof.
  induction before as [|b before IH]; intros rets act after e i returns H He.
  - destruct rets; [|discriminate]. cbn [app Sync_loop Sync_iterations List.length].
    rewrite Nat.add_0_r.
    destruct (call_then_wait i act) as [Htr Hres].
    destruct (call_execute i act) as [started f]; simpl in Htr, Hres.
    destruct (wait_for i f) as [waited r]; simpl in Htr, Hres.
    subst r. rewrite He, Htr. reflexivity.
  - destruct rets as [|ret rets]; [discriminate|].
    simpl in H. injection H as Hb Hrest.
    cbn [app Sync_loop Sync_iterations List.length].
    destruct (call_then_wait i b) as [Htr Hres].
    destruct (call_execute i b) as [started f]; simpl in Htr, Hres.
    destruct (wait_for i f) as [waited r]; simpl in Htr, Hres.
    subst r. rewrite Hb.
    rewrite (IH rets act after e (S i) (returns ++ [ret]) Hrest He).
    replace (S i + List.length before) with (i + S (List.length before)) by lia.
    unfold Sync_iteration. rewrite <- Htr.
    f_equal. cbn [app]. f_equal. now rewrite <- !app_assoc.
Qed.

Lemma Sync_loop_raise_witness :
  Sync_loop 0 ([Coroutine 1 (Returned false)]
               ++ Coroutine 0 (Raised UnrecoverableActorFailure)
               :: [Coroutine 2 (Returned true)]) []
  = (Sync_iterations 0 [Coroutine 1 (Returned false)] [false]
       ++ LogBeginning (0 + 1)
       :: child_run (0 + 1) (Coroutine 0 (Raised UnrecoverableActorFailure)),
     Raised UnrecoverableActorFailure).
Proof.
  exact (Sync_loop_raise [Coroutine 1 (Returned false)] [false]
           (Coroutine 0 (Raised UnrecoverableActorFailure))
           [Coroutine 2 (Returned true)] UnrecoverableActorFailure 0 []
           eq_refl eq_refl).
Defined.

Lemma filter_Sync_iterations :
  forall (actions : list coroutine) (rets : list bool) (i : nat),
    List.length actions = List.length rets ->
    filter is_child_event (Sync_iterations i actions rets)
    = concat (map (fun p => child_run (fst p) (snd p))
                  (combine (seq i (List.length actions)) actions)).
Proof.
  induction actions as [|act actions IH]; intros rets i Hlen.
  - reflexivity.
  - destruct rets as [|ret rets]; [discriminate|].
    cbn [Sync_iterations List.length seq combine map concat].
    unfold Sync_iteration.
    cbn [filter is_child_event app].
    rewrite !filter_app, filter_child_run. cbn [filter is_child_event app].
    rewrite <- app_assoc. cbn [app]. f_equal.
    apply IH. simpl in Hlen. lia.
Qed.

Lemma in_range_step (i j n : nat) :
  (if Nat.eqb i j then 1 else 0)
  + (if (S j <=? i) && (i <? S j + n) then 1 else 0)
  = if (j <=? i) && (i <? j + S n) then 1 else 0.
Proof.
  destruct (Nat.eqb_spec i j), (Nat.leb_spec (S j) i), (Nat.leb_spec j i),
    (Nat.ltb_spec i (S j + n)), (Nat.ltb_spec i (j + S n));
    simpl; try reflexivity; lia.
Qed.

Lemma count_Started_child_run (i j : nat) (act : coroutine) :
  count_occ event_eq_dec (child_run j act) (Started i) = if Nat.eqb i j then 1 else 0.
Proof.
  unfold child_run. cbn [count_occ].
  assert (Hrest : count_occ event_eq_dec
            (repeat (Resumed j) (suspensions act) ++ [Completed j (result act)])
            (Started i) = 0).
  { apply count_occ_not_In. intros Hin. apply in_app_or in Hin.
    destruct Hin as [Hin | [Hin | []]]; [|discriminate].
    apply repeat_spec in Hin. discriminate. }
  destruct (event_eq_dec (Started j) (Started i)) as [Heq | Hne].
  - injection Heq as ->. rewrite Nat.eqb_refl, Hrest. reflexivity.
  - destruct (Nat.eqb_spec i j) as [-> | _]; [congruence | exact Hrest].
Qed.

Lemma count_Started_Sync_iterations :
  forall (actions : list coroutine) (rets : list bool) (i j : nat),
    List.length actions = List.length rets ->
    count_occ event_eq_dec (Sync_iterations j actions rets) (Started i)
    = if (j <=? i) && (i <? j + List.length actions) then 1 else 0.
Proof.
  induction actions as [|act actions IH]; intros rets i j Hlen.
  - simpl. rewrite Nat.add_0_r.
    destruct (Nat.leb_spec j i), (Nat.ltb_spec i j); simpl; try reflexivity; lia.
  - destruct rets as [|ret rets]; [discriminate|].
    cbn [Sync_iterations List.length]. unfold Sync_iteration.
    rewrite count_occ_app. cbn [count_occ].
    destruct (event_eq_dec (LogBeginning j) (Started i)); [discriminate|].
    rewrite count_occ_app, count_Started_child_run. cbn [count_occ].
    destruct (event_eq_dec (LogFinished j ret) (Started i)); [discriminate|].
    rewrite (IH rets i (S j)) by (simpl in Hlen; lia).
    rewrite Nat.add_0_r. apply in_range_step.
Qed.

(** ** Facts about Async *)

Definition future_result (f : future) : outcome bool :=
  match f with
  | Suspended _ r => r
  | Done r => r
  end.

(** Resumptions a future still needs. *)
Definition remaining (f : future) : nat :=
  match f with
  | Suspended k _ => S k
  | Done _ => 0
  end.

Definition total_remaining (executions : list future) : nat :=
  list_sum (map remaining executions).

Definition resolved (f : future) : future := Done (future_result f).

Lemma call_execute_future (i : nat) (act : coroutine) :
  future_result (snd (call_execute i act)) = result act
  /\ remaining (snd (call_execute i act)) = suspensions act.
Proof.
  unfold call_execute. destruct (suspensions act); simpl; split; reflexivity.
Qed.

Lemma call_execute_events (i : nat) (act : coroutine) (ev : event) :
  In ev (fst (call_execute i act)) ->
  ev = Started i \/ (ev = Completed i (result act) /\ suspensions act = 0).
Proof.
  unfold call_execute. destruct (suspensions act); simpl; intuition.
Qed.

Lemma count_Started_call_execute (i j : nat) (act : coroutine) :
  count_occ event_eq_dec (fst (call_execute j act)) (Started i)
  = if Nat.eqb i j then 1 else 0.
Proof.
  unfold call_execute.
  destruct (suspensions act); cbn [fst count_occ];
    destruct (event_eq_dec (Started j) (Started i)) as [Heq | Hne];
    try (injection Heq as ->; rewrite Nat.eqb_refl);
    try (destruct (Nat.eqb_spec i j); [congruence|]);
    try destruct (event_eq_dec (Completed j (result act)) (Started i));
    try discriminate; reflexivity.
Qed.

Lemma Async_start_futures :
  forall (actions : list coroutine) (i : nat),
    map future_result (snd (Async_start i actions)) = map result actions
    /\ map remaining (snd (Async_start i actions)) = map suspensions actions.
Proof.
  induction actions as [|act actions IH]; intros i; [split; reflexivity|].
  cbn [Async_start].
  destruct (call_execute_future i act) as [Hr Hn].
  destruct (call_execute i act) as [started f]; simpl in Hr, Hn.
  destruct (IH (S i)) as [IHr IHn].
  destruct (Async_start (S i) actions) as [tr executions]; simpl in *.
  now rewrite Hr, Hn, IHr, IHn.
Qed.

Lemma Async_start_events :
  forall (actions : list coroutine) (i : nat) (ev : event),
    In ev (fst (Async_start i actions)) ->
    exists j, ev = Started j \/ exists r, ev = Completed j r.
Proof.
  induction actions as [|act actions IH]; intros i ev Hin; [destruct Hin|].
  cbn [Async_start] in Hin.
  pose proof (call_execute_events i act ev) as Hcall.
  destruct (call_execute i act) as [started f]; simpl in Hcall.
  specialize (IH (S i) ev).
  destruct (Async_start (S i) actions) as [tr executions]; simpl in *.
  apply in_app_or in Hin. destruct Hin as [Hin | Hin]; [|now apply IH].
  exists i. destruct (Hcall Hin) as [-> | [-> _]]; [now left | right; eauto].
Qed.

Lemma count_Started_Async_start :
  forall (actions : list coroutine) (i j : nat),
    count_occ event_eq_dec (fst (Async_start j actions)) (Started i)
    = if (j <=? i) && (i <? j + List.length actions) then 1 else 0.
Proof.
  induction actions as [|act actions IH]; intros i j.
  - simpl. rewrite Nat.add_0_r.
    destruct (Nat.leb_spec j i), (Nat.ltb_spec i j); simpl; try reflexivity; lia.
  - cbn [Async_start List.length].
    pose proof (count_Started_call_execute i j act) as Hcall.
    destruct (call_execute j act) as [started f]; simpl in Hcall.
    specialize (IH i (S j)).
    destruct (Async_start (S j) actions) as [tr executions]; cbn [fst] in IH.
    cbn [fst]. rewrite count_occ_app, Hcall, IH. apply in_range_step.
Qed.

(** A child that never suspends is already completed when the first loop is
    over. *)
Lemma Async_start_completed :
  forall (actions : list coroutine) (i j : nat) (act : coroutine),
    nth_error actions j = Some act ->
    suspensions act = 0 ->
    In (Completed (i + j) (result act)) (fst (Async_start i actions)).
Proof.
  induction actions as [|a actions IH]; intros i j act Hnth Hs.
  - destruct j; discriminate.
  - cbn [Async_start].
    destruct j as [|j]; simpl in Hnth.
    + injection Hnth as ->. unfold call_execute. rewrite Hs.
      destruct (Async_start (S i) actions). simpl. rewrite Nat.add_0_r. auto.
    + specialize (IH (S i) j act Hnth Hs).
      destruct (call_execute i a) as [started f].
      destruct (Async_start (S i) actions) as [tr executions]; simpl in *.
      apply in_or_app. right.
      replace (i + S j) with (S (i + j)) by lia. exact IH.
Qed.

Lemma pending_spec :
  forall (executions : list future) (i j : nat),
    In j (pending i executions) <->
    i <= j /\ exists k r, nth_error executions (j - i) = Some (Suspended k r).
Proof.
  induction executions as [|f executions IH]; intros i j.
  - simpl. split; [tauto|]. intros [_ [k [r H]]]. destruct (j - i); discriminate.
  - destruct f as [k0 r0 | r0]; cbn [pending].
    + split.
      * intros [<- | Hin].
        -- split; [lia|]. rewrite Nat.sub_diag. simpl. eauto.
        -- apply IH in Hin. destruct Hin as [Hle [k [r H]]].
           split; [lia|]. exists k, r.
           replace (j - i) with (S (j - S i)) by lia. exact H.
      * intros [Hle [k [r H]]].
        destruct (Nat.eq_dec i j) as [-> | Hne]; [now left|].
        right. apply IH. split; [lia|]. exists k, r.
        replace (j - i) with (S (j - S i)) in H by lia. exact H.
    + rewrite IH. split.
      * intros [Hle [k [r H]]]. split; [lia|]. exists k, r.
        replace (j - i) with (S (j - S i)) by lia. exact H.
      * intros [Hle [k [r H]]].
        destruct (Nat.eq_dec i j) as [-> | Hne].
        -- rewrite Nat.sub_diag in H. discriminate.
        -- split; [lia|]. exists k, r.
           replace (j - i) with (S (j - S i)) in H by lia. exact H.
Qed.

Lemma all_resolved :
  forall (executions : list future),
    (forall j k r, nth_error executions j <> Some (Suspended k r)) ->
    map resolved executions = executions
    /\ forall i d, remaining (nth i executions d) = remaining d \/
                   remaining (nth i executions d) = 0.
Proof.
  induction executions as [|f executions IH]; intros H.
  - split; [reflexivity|]. intros [|i] d; simpl; auto.
  - destruct f as [k r | r]; [exfalso; exact (H 0 k r eq_refl)|].
    destruct IH as [IHm IHn].
    { intros j k r'. exact (H (S j) k r'). }
    split; [simpl; unfold resolved at 1; simpl; now rewrite IHm|].
    intros [|i] d; simpl; auto.
Qed.

Lemma pending_nil :
  forall (executions : list future),
    pending 0 executions = [] ->
    forall j k r, nth_error executions j <> Some (Suspended k r).
Proof.
  intros executions Hnil j k r Hnth.
  assert (Hin : In j (pending 0 executions)).
  { apply pending_spec. split; [lia|]. exists k, r. now rewrite Nat.sub_0_r. }
  rewrite Hnil in Hin. destruct Hin.
Qed.

Lemma total_remaining_zero :
  forall (executions : list future),
    total_remaining executions = 0 ->
    forall j k r, nth_error executions j <> Some (Suspended k r).
Proof.
  unfold total_remaining.
  induction executions as [|f executions IH]; intros H j k r Hnth.
  - destruct j; discriminate.
  - simpl in H. destruct j as [|j]; simpl in Hnth.
    + injection Hnth as ->. simpl in H. lia.
    + apply (IH ltac:(lia) j k r Hnth).
Qed.

Lemma resume_at_suspended (idx : nat) :
  forall (j : nat) (executions : list future) (k : nat) (r : outcome bool),
    nth_error executions j = Some (Suspended k r) ->
    exists executions',
      resume_at idx j executions = (fst (resume idx (Suspended k r)), executions')
      /\ total_remaining executions = S (total_remaining executions')
      /\ map future_result executions' = map future_result executions
      /\ nth_error executions' j = Some (snd (resume idx (Suspended k r)))
      /\ forall i, i <> j -> nth_error executions' i = nth_error executions i.
Proof.
  induction j as [|j IH]; intros executions k r Hnth.
  - destruct executions as [|f rest]; [discriminate|].
    simpl in Hnth. injection Hnth as ->.
    cbn [resume_at].
    destruct k as [|k]; cbn [resume fst snd];
      eexists; (split; [reflexivity|]);
      (split; [unfold total_remaining; simpl; reflexivity|]);
      (split; [reflexivity|]); (split; [reflexivity|]);
      intros [|i] Hi; [congruence | reflexivity | congruence | reflexivity].
  - destruct executions as [|f rest]; [discriminate|].
    simpl in Hnth. destruct (IH rest k r Hnth) as [rest' [Hres [Htot [Hmap [Hj Hi]]]]].
    cbn [resume_at]. rewrite Hres.
    exists (f :: rest'). split; [reflexivity|].
    split; [unfold total_remaining in *; simpl; lia|].
    split; [simpl; now rewrite Hmap|].
    split; [exact Hj|].
    intros [|i] Hne; [reflexivity|]. simpl. apply Hi. congruence.
Qed.

Lemma nth_mod_In (l : list nat) (x d : nat) :
  l <> [] -> In (nth (x mod List.length l) l d) l.
Proof.
  intros Hl. apply nth_In. apply Nat.mod_upper_bound.
  destruct l; [congruence | discriminate].
Qed.

Lemma remaining_nth (executions executions' : list future) (i : nat) (d : future) :
  nth_error executions' i = nth_error executions i ->
  remaining (nth i executions' d) = remaining (nth i executions d).
Proof.
  intros H. f_equal.
  destruct (nth_error executions i) as [f|] eqn:E.
  - rewrite (nth_error_nth _ _ d H), (nth_error_nth _ _ d E). reflexivity.
  - apply nth_error_None in H, E. now rewrite !nth_overflow.
Qed.

(** The join resolves every future, resumes each child exactly as often as
    it still needs, and does nothing else, whatever the scheduler picks. *)
Lemma Async_join_spec (pick : nat -> nat) :
  forall (fuel t : nat) (executions : list future),
    total_remaining executions <= fuel ->
    exists tr,
      Async_join pick fuel t executions = (tr, map resolved executions)
      /\ (forall i, count_occ event_eq_dec tr (Resumed i)
                    = remaining (nth i executions (Done (Returned true))))
      /\ (forall i k r, nth_error executions i = Some (Suspended k r) ->
                        In (Completed i r) tr)
      /\ (forall ev, In ev tr ->
                     exists i, ev = Resumed i \/ exists r, ev = Completed i r).
Proof.
  assert (Hdone : forall fuel t executions,
             (forall j k r, nth_error executions j <> Some (Suspended k r)) ->
             Async_join pick fuel t executions = ([], executions) ->
             exists tr,
               Async_join pick fuel t executions = (tr, map resolved executions)
               /\ (forall i, count_occ event_eq_dec tr (Resumed i)
                             = remaining (nth i executions (Done (Returned true))))
               /\ (forall i k r, nth_error executions i = Some (Suspended k r) ->
                                 In (Completed i r) tr)
               /\ (forall ev, In ev tr ->
                              exists i, ev = Resumed i \/ exists r, ev = Completed i r)).
  { intros fuel t executions Hnone Hrun.
    destruct (all_resolved executions Hnone) as [Hmap Hrem].
    exists []. rewrite Hmap. split; [exact Hrun|].
    split; [|split].
    - intros i. destruct (Hrem i (Done (Returned true))) as [-> | ->]; reflexivity.
    - intros i k r H. exfalso. exact (Hnone i k r H).
    - intros ev []. }
  induction fuel as [|fuel IH]; intros t executions Hfuel.
  - apply Hdone; [|reflexivity].
    apply total_remaining_zero. lia.
  - destruct (pending 0 executions) as [|p ps] eqn:Hpending.
    + apply Hdone; [now apply pending_nil|].
      cbn [Async_join]. now rewrite Hpending.
    + cbn [Async_join]. rewrite Hpending.
      set (j := nth (pick t mod List.length (p :: ps)) (p :: ps) p).
      assert (Hj : In j (pending 0 executions)).
      { rewrite Hpending. apply nth_mod_In. discriminate. }
      apply pending_spec in Hj. destruct Hj as [_ [k [r Hnth]]].
      rewrite Nat.sub_0_r in Hnth.
      destruct (resume_at_suspended j j executions k r Hnth)
        as [executions' [Hres [Htot [Hmap [Hnew Hother]]]]].
      rewrite Hres.
      destruct (IH (S t) executions' ltac:(lia)) as [tr [Hrun [Hcount [Hcompl Hshape]]]].
      rewrite Hrun. eexists. split.
      { f_equal. unfold resolved. rewrite <- !(map_map future_result Done).
        now rewrite Hmap. }
      split; [|split].
      * intros i. rewrite count_occ_app, Hcount.
        destruct (Nat.eq_dec i j) as [-> | Hne].
        -- rewrite (nth_error_nth _ _ _ Hnew), (nth_error_nth _ _ _ Hnth).
           destruct k as [|k]; cbn [resume fst snd count_occ remaining];
             destruct (event_eq_dec (Resumed j) (Resumed j)); try congruence;
             try destruct (event_eq_dec (Completed j r) (Resumed j));
             try discriminate; reflexivity.
        -- rewrite (remaining_nth _ _ _ _ (Hother i Hne)).
           assert (Hz : count_occ event_eq_dec (fst (resume j (Suspended k r)))
                          (Resumed i) = 0).
           { apply count_occ_not_In. intros Hin.
             destruct k; simpl in Hin;
               destruct Hin as [Hin | Hin]; try congruence;
               destruct Hin as [Hin | []]; discriminate. }
           rewrite Hz. reflexivity.
      * intros i k' r' Hi. apply in_or_app.
        destruct (Nat.eq_dec i j) as [-> | Hne].
        -- rewrite Hnth in Hi. injection Hi as <- <-.
           destruct k as [|k]; cbn [resume fst snd] in *.
           ++ left. simpl. auto.
           ++ right. apply (Hcompl j k r Hnew).
        -- right. apply (Hcompl i k' r'). now rewrite Hother.
      * intros ev Hin. apply in_app_or in Hin. destruct Hin as [Hin | Hin].
        -- exists j. destruct k; simpl in Hin.
           ++ destruct Hin as [<- | [<- | []]]; [now left | right; eauto].
           ++ destruct Hin as [<- | []]. now left.
        -- now apply Hshape.
Qed.

Lemma outcomes_resolved (executions : list future) :
  outcomes (map resolved executions) = Some (map future_result executions).
Proof.
  induction executions as [|f fs IH]; [reflexivity|].
  simpl. now rewrite IH.
Qed.

Lemma total_remaining_start (actions : list coroutine) (i : nat) :
  total_remaining (snd (Async_start i actions)) = total_suspensions actions.
Proof.
  unfold total_remaining, total_suspensions.
  now rewrite (proj2 (Async_start_futures actions i)).
Qed.

(** [Async._run_actions] split at [yield executions]. *)
Lemma Async_run_actions_spec (pick : nat -> nat) (actions : list coroutine) :
  exists joined,
    Async_run_actions pick actions
    = (fst (Async_start 0 actions) ++ Awaiting :: joined,
       Some (gather (map result actions)))
    /\ (forall i act, nth_error actions i = Some act ->
          count_occ event_eq_dec joined (Resumed i) = suspensions act
          /\ In (Completed i (result act)) (fst (Async_start 0 actions) ++ joined))
    /\ (forall ev, In ev joined ->
                   exists i, ev = Resumed i \/ exists r, ev = Completed i r).
Proof.
  unfold Async_run_actions.
  pose proof (total_remaining_start actions 0) as Htot.
  destruct (Async_start_futures actions 0) as [Hres Hrem].
  pose proof (Async_start_completed actions 0) as Hcompl0.
  destruct (Async_start 0 actions) as [started executions]; cbn [fst snd] in *.
  destruct (Async_join_spec pick (total_suspensions actions) 0 executions
              ltac:(lia)) as [joined [Hrun [Hcount [Hcompl Hshape]]]].
  rewrite Hrun. exists joined. split; [|split].
  - rewrite outcomes_resolved, Hres. reflexivity.
  - intros i act Hnth.
    assert (Hf : exists f, nth_error executions i = Some f
                           /\ future_result f = result act
                           /\ remaining f = suspensions act).
    { assert (H1 : nth_error (map future_result executions) i = Some (result act))
        by (rewrite Hres; now apply map_nth_error).
      assert (H2 : nth_error (map remaining executions) i = Some (suspensions act))
        by (rewrite Hrem; now apply map_nth_error).
      rewrite nth_error_map in H1, H2.
      destruct (nth_error executions i) as [f|]; [|discriminate].
      exists f. simpl in H1, H2. split; [reflexivity|]. split; congruence. }
    destruct Hf as [f [Hf [Hfr Hfn]]].
    split.
    + rewrite Hcount, (nth_error_nth _ _ _ Hf). exact Hfn.
    + apply in_or_app. destruct f as [k r | r]; simpl in Hfr, Hfn.
      * right. subst r. exact (Hcompl i k _ Hf).
      * left. apply (Hcompl0 i act Hnth). congruence.
  - exact Hshape.
Qed.

Lemma gather_Returned (rets : list bool) :
  gather (map Returned rets) = Returned rets.
Proof.
  induction rets as [|b rets IH]; [reflexivity|].
  simpl. now rewrite IH.
Qed.

Lemma py_all_true (rets : list bool) :
  py_all rets = true <-> Forall (fun ret => ret = true) rets.
Proof.
  unfold py_all. rewrite forallb_forall, Forall_forall. reflexivity.
Qed.

(** ** The aggregate result *)

Lemma run_actions_all_return (mode : group_mode) (pick : nat -> nat)
    (actions : list coroutine) (rets : list bool) :
  map result actions = map Returned rets ->
  snd (_run_actions mode pick actions) = Some (Returned rets).
Proof.
  intros H. destruct mode; cbn [_run_actions].
  - unfold Sync_run_actions.
    rewrite (Sync_loop_all_return actions rets 0 [] H). reflexivity.
  - destruct (Async_run_actions_spec pick actions) as [joined [Hrun _]].
    rewrite Hrun, H, gather_Returned. reflexivity.
Qed.

(** C1. For a Sync or an Async group, whatever the scheduler does and however
    often the children suspend: when the children's [execute] return the
    results [rets], the group's [_execute] returns [all(rets)], which is true
    if and only if every child returned true. *)
Theorem Group_execute_is_and_of_child_results :
  forall (mode : group_mode) (pick : nat -> nat)
         (actions : list coroutine) (rets : list bool),
    map result actions = map Returned rets ->
    snd (_execute mode pick actions) = Some (Returned (py_all rets))
    /\ (py_all rets = true <-> Forall (fun ret => ret = true) rets).
Proof.
  intros mode pick actions rets H.
  split; [|apply py_all_true].
  pose proof (run_actions_all_return mode pick actions rets H) as Hrun.
  unfold _execute.
  destruct (_run_actions mode pick actions) as [tr out]; simpl in Hrun.
  subst out. reflexivity.
Qed.

Lemma Group_execute_is_and_of_child_results_witness :
  snd (_execute Async (fun t => t)
         [Coroutine 2 (Returned true); Coroutine 0 (Returned false);
          Coroutine 1 (Returned true)])
  = Some (Returned (py_all [true; false; true]))
  /\ (py_all [true; false; true] = true
      <-> Forall (fun ret => ret = true) [true; false; true]).
Proof.
  exact (Group_execute_is_and_of_child_results Async (fun t => t)
           [Coroutine 2 (Returned true); Coroutine 0 (Returned false);
            Coroutine 1 (Returned true)]
           [true; false; true] eq_refl).
Defined.

(** ** Sync: order of execution *)

(** C2. In a Sync group whose children return, every child's [execute] is
    called exactly once; the children's events come in declaration order,
    each child's run (start, resumptions, completion) a block that ends
    before the next child is started; and every child is run whatever the
    earlier children returned, [False] included: the list of all results is
    what [_run_actions] hands back. *)
Theorem Sync_runs_every_child_once_in_order :
  forall (actions : list coroutine) (rets : list bool),
    map result actions = map Returned rets ->
    snd (Sync_run_actions actions) = Some (Returned rets)
    /\ filter is_child_event (fst (Sync_run_actions actions))
       = concat (map (fun p => child_run (fst p) (snd p))
                     (combine (seq 0 (List.length actions)) actions))
    /\ forall i, i < List.length actions ->
         count_occ event_eq_dec (fst (Sync_run_actions actions)) (Started i) = 1.
Proof.
  intros actions rets H.
  assert (Hlen : List.length actions = List.length rets).
  { rewrite <- (length_map result actions), H. apply length_map. }
  unfold Sync_run_actions.
  rewrite (Sync_loop_all_return actions rets 0 [] H). cbn [fst snd app].
  split; [reflexivity|]. split.
  - now apply filter_Sync_iterations.
  - intros i Hi. rewrite count_Started_Sync_iterations by exact Hlen.
    destruct (Nat.leb_spec 0 i); [|lia].
    destruct (Nat.ltb_spec i (0 + List.length actions)); [reflexivity | lia].
Qed.

Lemma Sync_runs_every_child_once_in_order_witness :
  let actions := [Coroutine 1 (Returned false); Coroutine 0 (Returned true);
                  Coroutine 2 (Returned false)] in
  snd (Sync_run_actions actions) = Some (Returned [false; true; false])
  /\ filter is_child_event (fst (Sync_run_actions actions))
     = concat (map (fun p => child_run (fst p) (snd p))
                   (combine (seq 0 (List.length actions)) actions))
  /\ forall i, i < List.length actions ->
       count_occ event_eq_dec (fst (Sync_run_actions actions)) (Started i) = 1.
Proof.
  exact (Sync_runs_every_child_once_in_order
           [Coroutine 1 (Returned false); Coroutine 0 (Returned true);
            Coroutine 2 (Returned false)]
           [false; true; false] eq_refl).
Defined.

(** The trace of a Sync group whose first child returns [False]: the second
    child is begun after the first has finished, and it is run. *)
Example Sync_continues_after_False :
  Sync_run_actions [Coroutine 1 (Returned false); Coroutine 0 (Returned true)]
  = ([LogBeginning 0; Started 0; Resumed 0; Completed 0 (Returned false);
      LogFinished 0 false;
      LogBeginning 1; Started 1; Completed 1 (Returned true);
      LogFinished 1 true],
     Some (Returned [false; true])).
Proof. reflexivity. Qed.

(** What the loop does about an exception (not a [False]): it is not caught,
    so the children after the one that raised are not run. *)
Example Sync_stops_at_exception :
  Sync_run_actions [Coroutine 0 (Raised UnrecoverableActorFailure);
                    Coroutine 0 (Returned true)]
  = ([LogBeginning 0; Started 0; Completed 0 (Raised UnrecoverableActorFailure)],
     Some (Raised UnrecoverableActorFailure)).
Proof. reflexivity. Qed.

(** ** Async: start all, then join all *)

(** C3. An Async group, under every scheduler and whatever its children
    return or raise: the trace is the starts of all children (each child
    started exactly once, nobody resumed yet), then the [yield] of the list of
    futures, then resumptions and completions only, then the group's own
    result; every child is resumed as often as it suspends and completes
    before the aggregate is computed, so no result of a sibling cancels
    it. *)
Theorem Async_starts_all_then_waits_for_all :
  forall (pick : nat -> nat) (actions : list coroutine),
    exists (started joined : list event) (r : outcome bool),
      _execute Async pick actions
      = (started ++ Awaiting :: joined ++ [GroupReturned r], Some r)
      /\ (forall i, i < List.length actions ->
            count_occ event_eq_dec started (Started i) = 1)
      /\ (forall ev, In ev started ->
            exists i, ev = Started i \/ exists r', ev = Completed i r')
      /\ (forall ev, In ev joined ->
            exists i, ev = Resumed i \/ exists r', ev = Completed i r')
      /\ (forall i act, nth_error actions i = Some act ->
            count_occ event_eq_dec joined (Resumed i) = suspensions act
            /\ In (Completed i (result act)) (started ++ joined)).
Proof.
  intros pick actions.
  destruct (Async_run_actions_spec pick actions) as [joined [Hrun [Hall Hshape]]].
  exists (fst (Async_start 0 actions)), joined.
  unfold _execute. cbn [_run_actions]. rewrite Hrun.
  assert (Hstart : forall i, i < List.length actions ->
            count_occ event_eq_dec (fst (Async_start 0 actions)) (Started i) = 1).
  { intros i Hi. rewrite count_Started_Async_start.
    destruct (Nat.leb_spec 0 i); [|lia].
    destruct (Nat.ltb_spec i (0 + List.length actions)); [reflexivity | lia]. }
  destruct (gather (map result actions)) as [rets | e].
  - exists (Returned (py_all rets)).
    split; [now rewrite <- app_assoc|].
    split; [exact Hstart|]. split; [apply Async_start_events|].
    split; [exact Hshape | exact Hall].
  - exists (Raised e).
    split; [now rewrite <- app_assoc|].
    split; [exact Hstart|]. split; [apply Async_start_events|].
    split; [exact Hshape | exact Hall].
Qed.

(** A run with a failing and a raising child among three: the third child is
    still resumed to its end. *)
Example Async_siblings_run_to_completion :
  _execute Async (fun t => t)
    [Coroutine 1 (Returned false); Coroutine 0 (Raised UnrecoverableActorFailure);
     Coroutine 2 (Returned true)]
  = ([Started 0; Started 1; Completed 1 (Raised UnrecoverableActorFailure);
      Started 2; Awaiting;
      Resumed 0; Completed 0 (Returned false);
      Resumed 2; Resumed 2; Completed 2 (Returned true);
      GroupReturned (Raised UnrecoverableActorFailure)],
     Some (Raised UnrecoverableActorFailure)).
Proof. reflexivity. Qed.

(** ** Construction: the dry flag and validation *)

(** Induction on scripts, with the hypothesis on every child of a node. *)
Lemma config_nested_ind (P : config -> Prop) :
  (forall actor desc options acts,
      Forall P acts -> P (Config actor desc options acts)) ->
  forall cfg, P cfg.
Proof.
  intros Hnode. fix IH 1.
  intros [actor desc options acts]. apply Hnode.
  induction acts as [|act acts IHacts]; constructor; [apply IH | exact IHacts].
Qed.

Section ConstructionFacts.

Variable get_actor' : config -> bool -> outcome actor.
Variable dry : bool.

(** A loop that returns has appended one actor per child specification,
    in order, each the result of [get_actor] with the group's flag. *)
Lemma build_actions_returned :
  forall (acts : list config) (actions built : list actor),
    _build_actions get_actor' dry acts actions = Returned built ->
    exists children,
      built = actions ++ children
      /\ Forall2 (fun act child => get_actor' act dry = Returned child)
                 acts children.
Proof.
  induction acts as [|act acts IH]; intros actions built H.
  - simpl in H. injection H as <-. exists []. split; [now rewrite app_nil_r|].
    constructor.
  - cbn [_build_actions] in H.
    destruct (get_actor' act dry) as [a|e] eqn:Hact; [|discriminate].
    destruct (IH (actions ++ [a]) built H) as [children [-> Hall]].
    exists (a :: children). split; [now rewrite <- app_assoc|].
    constructor; assumption.
Qed.


End ConstructionFacts.

Lemma get_actor_group (leaf_init : string -> string -> list (string * string) ->
                                   bool -> outcome coroutine)
    (actor desc : string) (options : list (string * string))
    (acts : list config) (dry : bool) (mode : group_mode) :
  group_class actor = Some mode ->
  get_actor leaf_init (Config actor desc options acts) dry
  = BaseGroupActor_init (get_actor leaf_init) mode desc acts dry.
Proof. intros H. cbn [get_actor]. now rewrite H. Qed.

(** C4. In a tree that [get_actor] has built with the flag [dry], the root
    carries [dry], a group's children are the actors [get_actor] builds from
    the child specifications with the group's own flag, and every descendant
    carries the flag of the root. *)
Theorem dry_flag_is_propagated_to_every_descendant :
  forall (leaf_init : string -> string -> list (string * string) ->
                      bool -> outcome coroutine)
         (cfg : config) (dry : bool) (a : actor),
    get_actor leaf_init cfg dry = Returned a ->
    actor_dry a = dry
    /\ (forall mode desc _dry actions,
          a = GroupActor mode desc _dry actions ->
          exists acts,
            Forall2 (fun act child => get_actor leaf_init act _dry = Returned child)
                    acts actions)
    /\ (forall d, In d (descendants a) -> actor_dry d = actor_dry a).
Proof.
  intros leaf_init cfg.
  induction cfg as [actor desc options acts IH] using config_nested_ind.
  intros dry a H. cbn [get_actor] in H.
  destruct (group_class actor) as [mode|].
  - unfold BaseGroupActor_init in H.
    destruct (_build_actions (get_actor leaf_init) dry acts []) as [built|e] eqn:Hb;
      [|discriminate].
    injection H as <-.
    destruct (build_actions_returned _ _ _ _ _ Hb) as [children [-> Hall]].
    cbn [app actor_dry descendants].
    split; [reflexivity|]. split.
    + intros mode' desc' dry' actions' Heq. injection Heq as <- <- <- <-.
      exists acts. exact Hall.
    + intros d Hd. apply in_flat_map in Hd. destruct Hd as [child [Hchild Hd]].
      clear Hb. induction Hall as [|act c acts' children' Hc Hall IHall].
      * destruct Hchild.
      * apply Forall_cons_iff in IH. destruct IH as [IHact IHrest].
        destruct Hchild as [-> | Hchild]; [|exact (IHall IHrest Hchild)].
        destruct (IHact dry child Hc) as [Hdry [_ Hdesc]].
        destruct Hd as [<- | Hd]; [exact Hdry|].
        rewrite (Hdesc d Hd). exact Hdry.
  - destruct (leaf_init actor desc options dry) as [body|e]; [|discriminate].
    injection H as <-. cbn [actor_dry descendants].
    split; [reflexivity|]. split; [discriminate|]. intros d [].
Qed.

(** Constructors of two concrete actor classes, for the examples: a sleep
    actor that needs a ['sleep'] option, and nothing else. *)
Definition sample_leaf_init (actor desc : string)
    (options : list (string * string)) (dry : bool) : outcome coroutine :=
  if String.eqb actor "misc.Sleep" then
    if existsb (fun kv => String.eqb (fst kv) "sleep") options
    then Returned (Coroutine 1 (Returned true))
    else Raised InvalidOptions
  else Raised InvalidOptions.

Definition sample_sleep (desc : string) : config :=
  Config "misc.Sleep" desc [("sleep", "1")] [].

Definition sample_nested_script : config :=
  Config "group.Sync" "stages" []
    [sample_sleep "first";
     Config "group.Async" "parallel" [] [sample_sleep "left"; sample_sleep "right"]].

Lemma dry_flag_is_propagated_to_every_descendant_witness :
  let a := GroupActor Sync "stages" true
             [Leaf "first" true (Coroutine 1 (Returned true));
              GroupActor Async "parallel" true
                [Leaf "left" true (Coroutine 1 (Returned true));
                 Leaf "right" true (Coroutine 1 (Returned true))]] in
  actor_dry a = true
  /\ (forall mode desc _dry actions,
        a = GroupActor mode desc _dry actions ->
        exists acts,
          Forall2 (fun act child =>
                     get_actor sample_leaf_init act _dry = Returned child)
                  acts actions)
  /\ (forall d, In d (descendants a) -> actor_dry d = actor_dry a).
Proof.
  exact (dry_flag_is_propagated_to_every_descendant
           sample_leaf_init sample_nested_script true _ eq_refl).
Defined.


(** A group whose third child lacks its required option. *)
Definition sample_invalid_third : config :=
  Config "group.Sync" "stages" []
    [sample_sleep "first"; sample_sleep "second";
     Config "misc.Sleep" "third" [("slep", "1")] []].


Example third_child_invalid_nothing_runs :
  deploy sample_leaf_init (fun t => t) sample_invalid_third false
  = ([], Some (Raised InvalidOptions)).
Proof. reflexivity. Qed.

(** The same script with a valid third child is built and run. *)
Example valid_script_runs :
  deploy sample_leaf_init (fun t => t)
    (Config "group.Sync" "stages" [] [sample_sleep "first"; sample_sleep "second"])
    false
  = ([LogBeginning 0; Started 0; Resumed 0; Completed 0 (Returned true);
      LogFinished 0 true;
      LogBeginning 1; Started 1; Resumed 1; Completed 1 (Returned true);
      LogFinished 1 true; GroupReturned (Returned true)],
     Some (Returned true)).
Proof. reflexivity. Qed.

(** [_execute] always resolves: the [None] of [as_coroutine] is never met. *)
Lemma execute_resolves (mode : group_mode) (pick : nat -> nat)
    (actions : list coroutine) :
  exists r, snd (_execute mode pick actions) = Some r.
Proof.
  unfold _execute. destruct mode; cbn [_run_actions].
  - unfold Sync_run_actions. destruct (Sync_loop 0 actions []) as [tr [rets|e]];
      eexists; reflexivity.
  - destruct (Async_run_actions_spec pick actions) as [joined [Hrun _]].
    rewrite Hrun. destruct (gather (map result actions)); eexists; reflexivity.
Qed.

End Group.

(** * Calls to the outside world *)

Inductive call : Type :=
| FindElb (name : string)                       (* self._find_elb: a lookup *)
| GetInstanceHealth                             (* elb.get_instance_health() *)
| RegisterInstances (instances : list string)   (* elb.register_instances *)
| DeregisterInstances (instances : list string) (* elb.deregister_instances *)
| HttpGetPackages (repo : string)               (* packages(...).http_get() *)
| HttpDelete (repo distro_version filename : string)  (* delete(...).http_delete() *)
| ReadClock                                     (* datetime.datetime.now() *)
| Sleep (seconds : Z)                           (* utils.tornado_sleep, gen.sleep *).

(** The calls that change something outside. *)
Definition is_mutation (c : call) : bool :=
  match c with
  | RegisterInstances _ | DeregisterInstances _ | HttpDelete _ _ _ => true
  | _ => false
  end.

(** * The [retrying] decorator *)

Module Retrying.

Section Call.

Variable A : Type.

(** The settings of a [Retrying] object that its [call] loop reads.  The
    stop function is given the attempt number; delays are not modelled. *)
Record Retrying : Type := {
  stop : nat -> bool;
  _retry_on_exception : exn -> bool;
  _retry_on_result : A -> bool;
  _wrap_exception : bool
}.

(** [Retrying()] with no argument: [never_stop], [always_reject] for
    exceptions, [never_reject] for results, exceptions not wrapped. *)
Definition defaults : Retrying := {|
  stop := fun _ => false;
  _retry_on_exception := fun _ => true;
  _retry_on_result := fun _ => false;
  _wrap_exception := false
|}.

Definition should_reject (r : Retrying) (attempt : outcome A) : bool :=
  match attempt with
  | Raised e => _retry_on_exception r e
  | Returned v => _retry_on_result r v
  end.

(** [attempt.get(wrap_exception)]. *)
Definition get (r : Retrying) (attempt : outcome A) : outcome A :=
  match attempt with
  | Raised e => if _wrap_exception r then Raised RetryError else Raised e
  | Returned v => Returned v
  end.

(** [Retrying.call]: the [while True] loop, entered at [attempt_number].
    [fn n] is what the [n]-th call of the wrapped function does.  The result
    is the number of calls made and the outcome, [None] when the loop is
    still retrying after [fuel] calls. *)
Fixpoint call (r : Retrying) (fn : nat -> outcome A)
    (fuel attempt_number : nat) : nat * option (outcome A) :=
  match fuel with
  | O => (attempt_number - 1, None)
  | S fuel' =>
      let attempt := fn attempt_number in
      if should_reject r attempt then
        if stop r attempt_number then
          (attempt_number,
           Some (match attempt with
                 | Raised e => if _wrap_exception r then Raised RetryError
                               else Raised e
                 | Returned _ => Raised RetryError
                 end))
        else call r fn fuel' (S attempt_number)
      else (attempt_number, Some (get r attempt))
  end.

(** [@retry] without arguments: [Retrying().call(f, ...)]. *)
Definition retry (fn : nat -> outcome A) (fuel : nat)
  : nat * option (outcome A) :=
  call defaults fn fuel 1.

End Call.

Arguments stop {A} r _.
Arguments _retry_on_exception {A} r _.
Arguments _retry_on_result {A} r _.
Arguments _wrap_exception {A} r.
Arguments defaults {A}.
Arguments should_reject {A} r attempt.
Arguments get {A} r attempt.
Arguments call {A} r fn fuel attempt_number.
Arguments retry {A} fn fuel.

End Retrying.

(** * ELB actors ([kingpin/actors/aws/elb.py]) *)

Module Elb.

(** ** Python numerals

    [float(s)] and [int(s)] are modelled on decimal numerals, with the
    blanks that both skip around the numeral: an optional sign and digits
    with at most one point for [float], an optional sign and digits for
    [int].  [None] stands for every other string: Python raises [ValueError]
    on most of them and reads a few forms that are left out here (an
    exponent, [inf], [nan]).  A Python float is an IEEE 754 binary64
    number, the kernel's [float]. *)

(** The characters C's [isspace] accepts, which [float] and [int] skip at
    both ends of the string. *)
Definition is_blank (c : ascii) : bool :=
  let n := Z.of_N (N_of_ascii c) in
  ((n =? 32) || ((9 <=? n) && (n <=? 13)))%Z.

Fixpoint lstrip_blanks (s : string) : string :=
  match s with
  | String c s' => if is_blank c then lstrip_blanks s' else s
  | EmptyString => EmptyString
  end.

Fixpoint rstrip_blanks (s : string) : string :=
  match s with
  | String c s' =>
      match rstrip_blanks s' with
      | EmptyString => if is_blank c then EmptyString else String c EmptyString
      | r => String c r
      end
  | EmptyString => EmptyString
  end.

Definition strip_blanks (s : string) : string :=
  rstrip_blanks (lstrip_blanks s).

Definition digit_of (c : ascii) : option Z :=
  let n := Z.of_N (N_of_ascii c) in
  if ((48 <=? n) && (n <=? 57))%Z then Some (n - 48)%Z else None.

(** Reads the digits at the head of [s] after the [n] digits whose value is
    [acc]: value, number of digits, and the rest of the string. *)
Fixpoint read_digits (s : string) (acc : Z) (n : nat) : Z * nat * string :=
  match s with
  | String c s' =>
      match digit_of c with
      | Some d => read_digits s' (10 * acc + d)%Z (S n)
      | None => (acc, n, s)
      end
  | EmptyString => (acc, n, s)
  end.

(** A decimal numeral as the integer made of all its digits and the number
    of digits after the point: ["78.9"] is [(789, 1)]. *)
Definition parse_decimal (s : string) : option (Z * nat) :=
  let '(int_part, n1, rest) := read_digits s 0%Z 0 in
  match rest with
  | EmptyString => if Nat.eqb n1 0 then None else Some (int_part, 0)
  | String c rest' =>
      if Ascii.eqb c "." then
        let '(digits, n2, rest'') := read_digits rest' int_part 0 in
        match rest'' with
        | EmptyString => if Nat.eqb (n1 + n2) 0 then None else Some (digits, n2)
        | String _ _ => None
        end
      else None
  end.

(** An integer as a float; exact below [2^53]. *)
Definition float_of_Z (z : Z) : float := PrimFloat.of_uint63 (Uint63.of_Z z).

(** [float(s)]: the binary64 number nearest to the decimal, which is the
    quotient of the digits by the power of ten when both are exact floats,
    with the sign the numeral has. *)
Definition py_float (s : string) : option float :=
  let unsigned (t : string) : option float :=
    match parse_decimal t with
    | Some (digits, k) =>
        if ((digits <? 2 ^ 53)%Z && (k <=? 18))%bool
        then Some (PrimFloat.div (float_of_Z digits) (float_of_Z (10 ^ Z.of_nat k)))
        else None
    | None => None
    end in
  match strip_blanks s with
  | String c s' =>
      if Ascii.eqb c "-" then option_map PrimFloat.opp (unsigned s')
      else if Ascii.eqb c "+" then unsigned s'
      else unsigned (String c s')
  | EmptyString => None
  end.

(** [int(s)] *)
Definition py_int (s : string) : option Z :=
  let unsigned (t : string) : option Z :=
    match read_digits t 0%Z 0 with
    | (v, S _, EmptyString) => Some v
    | _ => None
    end in
  match strip_blanks s with
  | String c s' =>
      if Ascii.eqb c "-" then option_map Z.opp (unsigned s')
      else if Ascii.eqb c "+" then unsigned s'
      else unsigned (String c s')
  | EmptyString => None
  end.

(** [str(n)] of an [int] that is not negative: its decimal digits. *)
Definition py_str (n : nat) : string :=
  DecimalString.NilEmpty.string_of_uint (Nat.to_uint n).

Definition is_digit (c : ascii) : bool :=
  match digit_of c with Some _ => true | None => false end.

Fixpoint all_digits (s : string) : bool :=
  match s with
  | String c s' => is_digit c && all_digits s'
  | EmptyString => true
  end.

(** [math.ceil] of a finite float, as an integer. *)
Definition py_ceil (x : float) : option Z :=
  match Prim2SF x with
  | S754_zero _ => Some 0%Z
  | S754_finite negative m e =>
      let magnitude : Z :=
        match e with
        | Z0 => Zpos m
        | Zpos k => (Zpos m * 2 ^ Zpos k)%Z
        | Zneg k =>
            if negative then (Zpos m / 2 ^ Zpos k)%Z
            else (- ((- Zpos m) / 2 ^ Zpos k))%Z
        end in
      Some (if negative then (- magnitude)%Z else magnitude)
  | S754_infinity _ | S754_nan => None
  end.

(** [s.strip('%')] *)
Fixpoint lstrip_percent (s : string) : string :=
  match s with
  | String c s' => if Ascii.eqb c "%" then lstrip_percent s' else s
  | EmptyString => EmptyString
  end.

Fixpoint rstrip_percent (s : string) : string :=
  match s with
  | String c s' =>
      match rstrip_percent s' with
      | EmptyString => if Ascii.eqb c "%" then EmptyString else String c EmptyString
      | r => String c r
      end
  | EmptyString => EmptyString
  end.

Definition strip_percent (s : string) : string :=
  rstrip_percent (lstrip_percent s).

(** ['%' in s] *)
Fixpoint contains_percent (s : string) : bool :=
  match s with
  | String c s' => if Ascii.eqb c "%" then true else contains_percent s'
  | EmptyString => false
  end.

(** ** p2f and WaitUntilHealthy._get_expected_count *)

(** The ['count'] option: an [int] or a [str]. *)
Inductive count_option : Type :=
| CountInt (n : Z)
| CountStr (s : string).

(** [p2f]: [float(string.strip('%')) / 100].  It is only reached with a
    [str]; an [int] has no [strip]. *)
Definition p2f (count : count_option) : option float :=
  match count with
  | CountStr s =>
      option_map (fun x => PrimFloat.div x (float_of_Z 100))
                 (py_float (strip_percent s))
  | CountInt _ => None
  end.

(** ['%' in str(count)]: the decimal form of an [int] has no ['%']. *)
Definition percent_in_str (count : count_option) : bool :=
  match count with
  | CountInt _ => false
  | CountStr s => contains_percent s
  end.

(** [int(count)] *)
Definition int_of_count (count : count_option) : option Z :=
  match count with
  | CountInt n => Some n
  | CountStr s => py_int s
  end.

(** [WaitUntilHealthy._get_expected_count].  [total_count] is a length: it
    is taken from 0 up to [2^53], where [int * float] converts it exactly.  The
    result of [math.ceil] is an integer-valued float and is kept as the
    integer. *)
Definition _get_expected_count (count : count_option) (total_count : Z)
  : option Z :=
  if percent_in_str count then
    match p2f count with
    | Some fraction =>
        if ((0 <=? total_count) && (total_count <? 2 ^ 53))%Z
        then py_ceil (PrimFloat.mul (float_of_Z total_count) fraction)
        else None
    | None => None
    end
  else int_of_count count.

(** [WaitUntilHealthy._is_healthy] on the list of the instances' states that
    [elb.get_instance_health()] has returned. *)
Definition _is_healthy (instance_list : list string) (count : count_option)
  : option bool :=
  let total_count := Z.of_nat (List.length instance_list) in
  let in_service_count :=
    Z.of_nat (count_occ string_dec instance_list "InService") in
  match _get_expected_count count total_count with
  | Some expected_count => Some (expected_count <=? in_service_count)%Z
  | None => None
  end.

(** Follows the spec's words, for comparison: the required count is
    [ceil(total * percentage)] for a percentage, else the literal integer,
    with the percentage the exact rational its digits write. *)
Definition spec_required_count (count : count_option) (total : Z) : option Z :=
  match count with
  | CountInt n => Some n
  | CountStr s =>
      if contains_percent s then
        match parse_decimal (strip_percent s) with
        | Some (digits, k) =>
            Some (- ((- (total * digits)) / (100 * 10 ^ Z.of_nat k)))%Z
        | None => None
        end
      else py_int s
  end.

(** ** WaitUntilHealthy._execute *)

(** The [while True] loop of [WaitUntilHealthy._execute], entered for the
    evaluation number [k].  [healthy k] is what
    [yield self._is_healthy(elb, count=...)] gives at that evaluation. *)
Fixpoint WaitUntilHealthy_loop (_dry : bool) (healthy : nat -> outcome bool)
    (fuel k : nat) : list call * option (outcome unit) :=
  match fuel with
  | O => ([], None)
  | S fuel' =>
      match healthy k with
      | Raised e => ([GetInstanceHealth], Some (Raised e))
      | Returned true => ([GetInstanceHealth], Some (Returned tt))
      | Returned false =>
          if _dry then ([GetInstanceHealth], Some (Returned tt))
          else
            let (tr, r) := WaitUntilHealthy_loop _dry healthy fuel' (S k) in
            (GetInstanceHealth :: Sleep 3 :: tr, r)
      end
  end.

(** [WaitUntilHealthy._execute]; [find_elb] is the outcome of
    [self._find_elb(name=...)]. *)
Definition WaitUntilHealthy_execute (_dry : bool) (name : string)
    (find_elb : outcome unit) (healthy : nat -> outcome bool) (fuel : nat)
  : list call * option (outcome unit) :=
  match find_elb with
  | Raised e => ([FindElb name], Some (Raised e))
  | Returned _ =>
      let (tr, r) := WaitUntilHealthy_loop _dry healthy fuel 0 in
      (FindElb name :: tr, r)
  end.

(** Number of evaluations of the condition in a trace. *)
Definition evaluations (tr : list call) : nat :=
  List.length (filter (fun c => match c with GetInstanceHealth => true | _ => false end) tr).

(** ** RegisterInstance and DeregisterInstance *)

(** The ['instance_id'] option: a [str], a [list] of them, or the default
    [None]. *)
Inductive instance_id_option : Type :=
| IdStr (s : string)
| IdList (l : list string)
| IdNone.

(** [instances = self.option('instance_id')], wrapped in a list when it is
    not one, then [', '.join(instances)] for the log line: joining [[None]]
    raises [TypeError]. *)
Definition instances_of (instance_id : instance_id_option)
  : outcome (list string) :=
  match instance_id with
  | IdStr s => Returned [s]
  | IdList l => Returned l
  | IdNone => Raised TypeError
  end.

(** [RegisterInstance._add]: [elb.register_instances(instances)] under
    [@retry].  [register n] is what the [n]-th call does. *)
Definition RegisterInstance_add (register : nat -> outcome unit) (fuel : nat)
  : nat * option (outcome unit) :=
  Retrying.retry register fuel.

(** [DeregisterInstance._remove], likewise. *)
Definition DeregisterInstance_remove (deregister : nat -> outcome unit)
    (fuel : nat) : nat * option (outcome unit) :=
  Retrying.retry deregister fuel.

Definition RegisterInstance_execute (_dry : bool) (elb : string)
    (instance_id : instance_id_option) (find_elb : outcome unit)
    (register : nat -> outcome unit) (fuel : nat)
  : list call * option (outcome unit) :=
  match find_elb with
  | Raised e => ([FindElb elb], Some (Raised e))
  | Returned _ =>
      match instances_of instance_id with
      | Raised e => ([FindElb elb], Some (Raised e))
      | Returned instances =>
          if negb _dry then
            let (attempts, r) := RegisterInstance_add register fuel in
            (FindElb elb :: repeat (RegisterInstances instances) attempts, r)
          else ([FindElb elb], Some (Returned tt))
      end
  end.

Definition DeregisterInstance_execute (_dry : bool) (elb : string)
    (instance_id : instance_id_option) (find_elb : outcome unit)
    (deregister : nat -> outcome unit) (fuel : nat)
  : list call * option (outcome unit) :=
  match find_elb with
  | Raised e => ([FindElb elb], Some (Raised e))
  | Returned _ =>
      match instances_of instance_id with
      | Raised e => ([FindElb elb], Some (Raised e))
      | Returned instances =>
          if negb _dry then
            let (attempts, r) := DeregisterInstance_remove deregister fuel in
            (FindElb elb :: repeat (DeregisterInstances instances) attempts, r)
          else ([FindElb elb], Some (Returned tt))
      end
  end.

(** ** The required count *)

(** An [int] target is returned as it is. *)
Lemma expected_count_of_int (n total_count : Z) :
  _get_expected_count (CountInt n) total_count = Some n.
Proof. reflexivity. Qed.

(** The health predicate is [in_service_count >= expected_count]. *)
Lemma is_healthy_compares (instance_list : list string) (count : count_option)
    (expected_count : Z) :
  _get_expected_count count (Z.of_nat (List.length instance_list))
  = Some expected_count ->
  _is_healthy instance_list count
  = Some (expected_count
          <=? Z.of_nat (count_occ string_dec instance_list "InService"))%Z.
Proof. intros H. unfold _is_healthy. now rewrite H. Qed.

(** A required count of zero is always satisfied. *)
Lemma is_healthy_zero (instance_list : list string) :
  _is_healthy instance_list (CountInt 0) = Some true.
Proof.
  unfold _is_healthy. rewrite expected_count_of_int. f_equal.
  apply Z.leb_le. lia.
Qed.

(** A digit is no blank, no ['%'] and no sign. *)
Lemma digit_is_plain (c : ascii) :
  is_digit c = true ->
  is_blank c = false /\ Ascii.eqb c "%" = false
  /\ Ascii.eqb c "-" = false /\ Ascii.eqb c "+" = false.
Proof.
  destruct c as [[] [] [] [] [] [] [] []]; vm_compute; intros H;
    try discriminate H; repeat split.
Qed.

Lemma string_of_uint_digits (d : Decimal.uint) :
  all_digits (DecimalString.NilEmpty.string_of_uint d) = true.
Proof. induction d; cbn [DecimalString.NilEmpty.string_of_uint all_digits]; auto. Qed.

Lemma lstrip_blanks_digits (s : string) :
  all_digits s = true -> lstrip_blanks s = s.
Proof.
  destruct s as [|c s']; [reflexivity|]. cbn [all_digits lstrip_blanks].
  intros H. apply andb_prop in H as [Hc _].
  now destruct (digit_is_plain c Hc) as [-> _].
Qed.

Lemma rstrip_blanks_digits (s : string) :
  all_digits s = true -> rstrip_blanks s = s.
Proof.
  induction s as [|c s' IH]; [reflexivity|]. cbn [all_digits rstrip_blanks].
  intros H. apply andb_prop in H as [Hc Hs]. rewrite (IH Hs).
  destruct s'; [|reflexivity].
  now destruct (digit_is_plain c Hc) as [-> _].
Qed.

Lemma contains_percent_digits (s : string) :
  all_digits s = true -> contains_percent s = false.
Proof.
  induction s as [|c s' IH]; [reflexivity|]. cbn [all_digits contains_percent].
  intros H. apply andb_prop in H as [Hc Hs].
  destruct (digit_is_plain c Hc) as (_ & -> & _). auto.
Qed.

(** [read_digits] reads a string of decimal digits to its end, and to the
    number the digits write. *)
Lemma read_digits_string_of_uint (d : Decimal.uint) :
  forall (acc n : nat),
    read_digits (DecimalString.NilEmpty.string_of_uint d) (Z.of_nat acc) n
    = (Z.of_nat (Nat.of_uint_acc d acc), n + Decimal.nb_digits d, EmptyString).
Proof.
  induction d; intros acc n;
    cbn [DecimalString.NilEmpty.string_of_uint read_digits Nat.of_uint_acc Decimal.nb_digits];
    [now rewrite Nat.add_0_r|..];
    match goal with
    | |- context [digit_of ?c] =>
        let v := eval vm_compute in (digit_of c) in
        change (digit_of c) with v; cbv iota beta
    end;
    rewrite Nat.tail_mul_spec;
    match goal with
    | |- read_digits _ ?z _ = (Z.of_nat (Nat.of_uint_acc _ ?a), _, _) =>
        replace z with (Z.of_nat a) by lia
    end;
    rewrite IHd; f_equal; f_equal; lia.
Qed.

Lemma to_uint_nonnil (n : nat) : Nat.to_uint n <> Decimal.Nil.
Proof.
  rewrite <- (DecimalNat.Unsigned.of_to n) at 1. rewrite DecimalNat.Unsigned.to_of.
  apply DecimalFacts.unorm_nonnil.
Qed.

(** [int(str(n))] is [n]. *)
Lemma py_int_str (n : nat) : py_int (py_str n) = Some (Z.of_nat n).
Proof.
  unfold py_int, py_str, strip_blanks.
  pose proof (string_of_uint_digits (Nat.to_uint n)) as Hd.
  rewrite (lstrip_blanks_digits _ Hd), (rstrip_blanks_digits _ Hd).
  pose proof (read_digits_string_of_uint (Nat.to_uint n) 0 0) as Hr.
  pose proof (to_uint_nonnil n) as Hn.
  change (Nat.of_uint_acc (Nat.to_uint n) 0) with (Nat.of_uint (Nat.to_uint n)) in Hr.
  rewrite DecimalNat.Unsigned.of_to in Hr. cbn [Z.of_nat Nat.add] in Hr.
  destruct (DecimalString.NilEmpty.string_of_uint (Nat.to_uint n)) as [|c s'] eqn:Hs.
  - destruct (Nat.to_uint n); try discriminate Hs. now elim Hn.
  - cbn [all_digits] in Hd. apply andb_prop in Hd as [Hc _].
    destruct (digit_is_plain c Hc) as (_ & _ & -> & ->).
    rewrite Hr.
    destruct (Nat.to_uint n) eqn:Hu; cbn [Decimal.nb_digits]; try reflexivity.
    now elim Hn.
Qed.

(** X2. The percentage threshold and the literal target: ["50%"] of 10 is
    5, also with a blank before the ['%']; ["50%"] of 0 is 0 and is then
    satisfied by no instance at all; a target given as an [int] is that
    integer, and so is one given as the decimal numeral of an integer,
    whatever the integer, also with blanks around the numeral. *)
Theorem percentage_threshold_examples :
  _get_expected_count (CountStr "50%") 10 = Some 5%Z
  /\ _get_expected_count (CountStr "50 %") 10 = Some 5%Z
  /\ _get_expected_count (CountStr "50%") 0 = Some 0%Z
  /\ _is_healthy [] (CountStr "50%") = Some true
  /\ (forall n total_count, _get_expected_count (CountInt n) total_count = Some n)
  /\ (forall n total_count,
        _get_expected_count (CountStr (py_str n)) total_count
        = Some (Z.of_nat n))
  /\ (forall total_count,
        _get_expected_count (CountStr " 4 ") total_count = Some 4%Z).
Proof.
  split; [vm_compute; reflexivity|].
  split; [vm_compute; reflexivity|].
  split; [vm_compute; reflexivity|].
  split; [vm_compute; reflexivity|].
  split; [intros; reflexivity|].
  split; [|intros; reflexivity].
  intros n total_count. unfold _get_expected_count, percent_in_str, int_of_count.
  rewrite (contains_percent_digits (py_str n)
             (string_of_uint_digits (Nat.to_uint n))).
  apply py_int_str.
Qed.

(** C5. With 100 instances and the target ["7%"], [_get_expected_count]
    answers 8: [7.0 / 100] is the float just above 0.07, its product with
    100 is the float just above 7, and [math.ceil] takes it to 8.  The
    ceiling of the exact product, [ceil(100 * 7 / 100)], is 7. *)
Theorem expected_count_7_percent_of_100 :
  _get_expected_count (CountStr "7%") 100 = Some 8%Z
  /\ spec_required_count (CountStr "7%") 100 = Some 7%Z.
Proof. split; vm_compute; reflexivity. Qed.

(** With 7 of 100 instances in service the actor does not see ["7%"]
    reached. *)
Example is_healthy_7_of_100 :
  _is_healthy (repeat "InService" 7 ++ repeat "OutOfService" 93) (CountStr "7%")
  = Some false.
Proof. vm_compute. reflexivity. Qed.

(** ** The poll loop in dry mode *)

(** X1. In dry mode [WaitUntilHealthy._execute] leaves its loop after the
    first evaluation of the condition, whatever it returned, and reports
    success. *)
Theorem WaitUntilHealthy_dry_single_evaluation :
  forall (name : string) (healthy : nat -> outcome bool) (fuel : nat) (b : bool),
    healthy 0 = Returned b ->
    WaitUntilHealthy_execute true name (Returned tt) healthy (S fuel)
    = ([FindElb name; GetInstanceHealth], Some (Returned tt))
    /\ evaluations (fst (WaitUntilHealthy_execute true name (Returned tt)
                           healthy (S fuel))) = 1.
Proof.
  intros name healthy fuel b H.
  unfold WaitUntilHealthy_execute. cbn [WaitUntilHealthy_loop].
  rewrite H. destruct b; split; reflexivity.
Qed.

Lemma WaitUntilHealthy_dry_single_evaluation_witness :
  WaitUntilHealthy_execute true "prod" (Returned tt) (fun _ => Returned false) 4
  = ([FindElb "prod"; GetInstanceHealth], Some (Returned tt))
  /\ evaluations (fst (WaitUntilHealthy_execute true "prod" (Returned tt)
                         (fun _ => Returned false) 4)) = 1.
Proof.
  exact (WaitUntilHealthy_dry_single_evaluation "prod" (fun _ => Returned false)
           3 false eq_refl).
Defined.

(** Outside dry mode the loop goes on for as long as the condition is
    false. *)
Lemma WaitUntilHealthy_waits :
  forall (healthy : nat -> outcome bool) (fuel k : nat),
    (forall n, healthy n = Returned false) ->
    snd (WaitUntilHealthy_loop false healthy fuel k) = None
    /\ evaluations (fst (WaitUntilHealthy_loop false healthy fuel k)) = fuel.
Proof.
  intros healthy fuel. induction fuel as [|fuel IH]; intros k H.
  - split; reflexivity.
  - cbn [WaitUntilHealthy_loop]. rewrite H.
    destruct (IH (S k) H) as [IHr IHn].
    destruct (WaitUntilHealthy_loop false healthy fuel (S k)) as [tr r].
    simpl in *. split; [exact IHr | now rewrite <- IHn].
Qed.

(** ** The retry wrapper *)

(** A function that raises at every call is called again and again. *)
Lemma call_defaults_all_raise (A : Type) (fn : nat -> outcome A) :
  (forall n, exists e, fn n = Raised e) ->
  forall fuel attempt_number,
    Retrying.call Retrying.defaults fn fuel attempt_number
    = (attempt_number + fuel - 1, None).
Proof.
  intros Hfn fuel. induction fuel as [|fuel IH]; intros attempt_number.
  - simpl. f_equal. lia.
  - cbn [Retrying.call]. destruct (Hfn attempt_number) as [e He].
    rewrite He. cbn. rewrite IH. f_equal. lia.
Qed.

(** A function that returns at its [n]-th call, after raising at the calls
    before, is called [n] times and its value is passed on. *)
Lemma call_defaults_until_return (A : Type) (fn : nat -> outcome A)
    (n : nat) (v : A) :
  fn n = Returned v ->
  forall fuel attempt_number,
    (forall i, attempt_number <= i < n -> exists e, fn i = Raised e) ->
    attempt_number <= n ->
    n - attempt_number < fuel ->
    Retrying.call Retrying.defaults fn fuel attempt_number = (n, Some (Returned v)).
Proof.
  intros Hn fuel. induction fuel as [|fuel IH]; intros a Hbefore Hle Hfuel; [lia|].
  cbn [Retrying.call].
  destruct (Nat.eq_dec a n) as [-> | Hne].
  - rewrite Hn. reflexivity.
  - destruct (Hbefore a ltac:(lia)) as [e He]. rewrite He. cbn.
    apply IH; [|lia|lia].
    intros i Hi. apply Hbefore. lia.
Qed.

(** The claim of the spec, for a wrapper: an operation that always fails
    with an unrecoverable error is attempted once and its error
    propagated. *)
Definition propagates_unrecoverable_at_once
    (wrapper : (nat -> outcome unit) -> nat -> nat * option (outcome unit))
  : Prop :=
  forall fuel, 1 <= fuel ->
    wrapper (fun _ => Raised UnrecoverableActorFailure) fuel
    = (1, Some (Raised UnrecoverableActorFailure)).

(** C7, as stated, fails: after three calls that each raised the
    unrecoverable error, [_add] and [_remove] have propagated nothing and are
    about to call again. *)
Lemma retry_repeats_unrecoverable_error :
  RegisterInstance_add (fun _ => Raised UnrecoverableActorFailure) 3 = (3, None)
  /\ DeregisterInstance_remove (fun _ => Raised UnrecoverableActorFailure) 3
     = (3, None)
  /\ ~ propagates_unrecoverable_at_once RegisterInstance_add
  /\ ~ propagates_unrecoverable_at_once DeregisterInstance_remove.
Proof.
  split; [reflexivity|]. split; [reflexivity|].
  split; intros H; specialize (H 3 ltac:(lia)); discriminate H.
Qed.

(** C7, amended.  [_add] and [_remove] call the operation again after every
    exception, of whatever class and without limit: while the operation
    keeps raising, nothing is propagated and the number of calls grows with
    the bound; once a call returns, its value is returned and no further
    call is made. *)
Theorem retry_repeats_after_every_exception :
  forall (operation : nat -> outcome unit),
    ((forall n, exists e, operation n = Raised e) ->
     forall fuel,
       RegisterInstance_add operation fuel = (fuel, None)
       /\ DeregisterInstance_remove operation fuel = (fuel, None))
    /\ (forall n fuel,
          1 <= n -> n <= fuel ->
          (forall i, 1 <= i < n -> exists e, operation i = Raised e) ->
          operation n = Returned tt ->
          RegisterInstance_add operation fuel = (n, Some (Returned tt))
          /\ DeregisterInstance_remove operation fuel = (n, Some (Returned tt))).
Proof.
  intros operation. split.
  - intros Hraise fuel.
    unfold RegisterInstance_add, DeregisterInstance_remove, Retrying.retry.
    rewrite (call_defaults_all_raise unit operation Hraise).
    split; f_equal; lia.
  - intros n fuel Hn Hfuel Hbefore Hret.
    unfold RegisterInstance_add, DeregisterInstance_remove, Retrying.retry.
    rewrite (call_defaults_until_return unit operation n tt Hret fuel 1 Hbefore Hn)
      by lia.
    split; reflexivity.
Qed.

Lemma retry_repeats_after_every_exception_witness :
  (forall fuel,
      RegisterInstance_add (fun _ => Raised UnrecoverableActorFailure) fuel
      = (fuel, None)
      /\ DeregisterInstance_remove (fun _ => Raised UnrecoverableActorFailure) fuel
         = (fuel, None))
  /\ RegisterInstance_add
       (fun n => if n <? 3 then Raised (ExternalError 503) else Returned tt) 5
     = (3, Some (Returned tt)).
Proof.
  split.
  - exact (proj1 (retry_repeats_after_every_exception
                    (fun _ => Raised UnrecoverableActorFailure))
             (fun _ => ex_intro _ UnrecoverableActorFailure eq_refl)).
  - refine (proj1 (proj2 (retry_repeats_after_every_exception
                            (fun n => if n <? 3 then Raised (ExternalError 503)
                                      else Returned tt))
                     3 5 _ _ _ eq_refl)); [lia | lia |].
    intros i Hi. exists (ExternalError 503).
    destruct (Nat.ltb_spec i 3); [reflexivity | lia].
Defined.

End Elb.

(** * packagecloud actors ([kingpin/actors/packagecloud.py]) *)

Module Packagecloud.

(** ** Packages *)

(** A package as the API lists it.  [created_at] is kept as the naive
    [datetime] that [strptime] reads from the stamp, counted in
    microseconds: the stamp ends in [Z] and names a time in UTC, of which
    [strptime] keeps the digits and no zone. *)
Record package : Type := Package {
  p_name : string;
  p_version : string;
  p_created_at : Z;
  p_distro_version : string;
  p_package_html_url : string
}.

(** An entry of the list that [_get_package_versions] builds. *)
Record version_entry : Type := VersionEntry {
  v_created_at : Z;
  v_distro_version : string;
  v_filename : string;
  v_name : string
}.

(** [url.split('/')[-1]]: what follows the last ['/']; [current] is what has
    been read since the last one. *)
Fixpoint last_component (url current : string) : string :=
  match url with
  | EmptyString => current
  | String c url' =>
      if Ascii.eqb c "/" then last_component url' EmptyString
      else last_component url' (current ++ String c EmptyString)%string
  end.

Definition version_of (p : package) : version_entry := {|
  v_created_at := p_created_at p;
  v_distro_version := p_distro_version p;
  v_filename := last_component (p_package_html_url p) EmptyString;
  v_name := p_name p
|}.

(** [versions.sort(key=created_at, reverse=True)]: newest first, entries of
    equal date in their order of listing. *)
Fixpoint insert_newest_first (v : version_entry) (sorted : list version_entry)
  : list version_entry :=
  match sorted with
  | [] => [v]
  | w :: rest =>
      if (v_created_at w <=? v_created_at v)%Z then v :: w :: rest
      else w :: insert_newest_first v rest
  end.

Definition sort_newest_first (versions : list version_entry)
  : list version_entry :=
  fold_right insert_newest_first [] versions.

(** [PackagecloudBase._get_package_versions] *)
Definition _get_package_versions (name : string) (all_packages : list package)
  : list version_entry :=
  sort_newest_first
    (map version_of (filter (fun p => String.eqb (p_name p) name) all_packages)).

(** What identifies a file for the delete call. *)
Definition path_of (p : package) : string * string :=
  (p_distro_version p, last_component (p_package_html_url p) EmptyString).

Definition v_path (v : version_entry) : string * string :=
  (v_distro_version v, v_filename v).

Definition path_eqb (x y : string * string) : bool :=
  String.eqb (fst x) (fst y) && String.eqb (snd x) (snd y).

Section Actors.

(** [re.compile]: raises on an invalid pattern, else gives what
    [pattern.match] answers on a string. *)
Variable re_compile : string -> outcome (string -> bool).

(** The outside world: what [datetime.datetime.now()] reads and what
    [http_delete()] does, when they are the call number [pos] of the run.
    [now()] is a naive [datetime] in the local time of the host, counted in
    microseconds like [created_at]. *)
Variable now : nat -> Z.
Variable http_delete : nat -> outcome unit.

(** [PackagecloudBase._get_packages_list_to_delete].  The order in which
    the names come out of the [set] is not specified; here each name comes
    at its last listing. *)
Definition _get_packages_list_to_delete (packages_to_delete : string)
    (all_packages : list package) : outcome (list string) :=
  match re_compile packages_to_delete with
  | Raised e => Raised e
  | Returned pattern_match =>
      Returned (nodup string_dec
                  (map p_name (filter (fun p => pattern_match (p_name p))
                                      all_packages)))
  end.

Section Delete.

Variable _dry : bool.
Variable repo : string.
Variable older_than : Z.
Variable number_to_keep : Z.

(** The inner loop of [_delete], [for package in package_versions], with
    the current [number_in_repo] and [deleted_packages]; [pos] is the
    number of calls to the outside made so far.  The result is the calls
    made and either the new [deleted_packages] or the exception that
    ended the method. *)
Fixpoint delete_versions (package_versions : list version_entry)
    (number_in_repo : Z) (pos : nat) (deleted_packages : list version_entry)
  : list call * outcome (list version_entry) :=
  match package_versions with
  | [] => ([], Returned deleted_packages)
  | package :: rest =>
      if (number_in_repo <=? number_to_keep)%Z
      then ([], Returned deleted_packages)                      (* break *)
      else if (negb (older_than =? 0)%Z
               && (now pos - v_created_at package <=? older_than * 1000000)%Z)%bool
      then                                                      (* continue *)
        let (tr, r) := delete_versions rest number_in_repo (S pos)
                         deleted_packages in
        (ReadClock :: tr, r)
      else
        let clock := if (older_than =? 0)%Z then [] else [ReadClock] in
        let pos := pos + List.length clock in
        if _dry then
          let (tr, r) := delete_versions rest (number_in_repo - 1) pos
                           (deleted_packages ++ [package]) in
          (clock ++ tr, r)
        else
          let delete := HttpDelete repo (v_distro_version package)
                                   (v_filename package) in
          match http_delete pos with
          | Raised e => (clock ++ [delete], Raised e)
          | Returned _ =>
              let (tr, r) := delete_versions rest (number_in_repo - 1) (S pos)
                               (deleted_packages ++ [package]) in
              (clock ++ delete :: tr, r)
          end
  end.

(** The outer loop of [_delete], [for name in packages_list_to_delete]. *)
Fixpoint delete_names (packages_list_to_delete : list string)
    (all_packages : list package) (pos : nat)
    (deleted_packages : list version_entry)
  : list call * outcome (list version_entry) :=
  match packages_list_to_delete with
  | [] => ([], Returned deleted_packages)
  | name :: rest =>
      let package_versions := _get_package_versions name all_packages in
      let number_in_repo := Z.of_nat (List.length package_versions) in
      match delete_versions package_versions number_in_repo pos
              deleted_packages with
      | (tr, Raised e) => (tr, Raised e)
      | (tr, Returned deleted_packages') =>
          let (tr', r) := delete_names rest all_packages
                            (pos + List.length tr) deleted_packages' in
          (tr ++ tr', r)
      end
  end.

(** [PackagecloudBase._delete]; [http_get] is the outcome of
    [self._get_all_packages(repo=repo)]. *)
Definition _delete (packages_to_delete : string)
    (http_get : outcome (list package))
  : list call * outcome (list version_entry) :=
  match http_get with
  | Raised e => ([HttpGetPackages repo], Raised e)
  | Returned all_packages =>
      match _get_packages_list_to_delete packages_to_delete all_packages with
      | Raised e => ([HttpGetPackages repo], Raised e)
      | Returned packages_list_to_delete =>
          let (tr, r) := delete_names packages_list_to_delete all_packages 1 [] in
          (HttpGetPackages repo :: tr, r)
      end
  end.

End Delete.

(** ** WaitForPackage *)

(** [WaitForPackage._search] on the listing that [_get_all_packages]
    returned. *)
Definition _search (http_get : outcome (list package)) (name version : string)
  : outcome (list package) :=
  match http_get with
  | Raised e => Raised e
  | Returned all_packages =>
      match re_compile name with
      | Raised e => Raised e
      | Returned name_match =>
          match re_compile version with
          | Raised e => Raised e
          | Returned version_match =>
              Returned (filter (fun p => name_match (p_name p)
                                         && version_match (p_version p))
                               all_packages)
          end
      end
  end.

(** The [while True] loop of [WaitForPackage._execute], entered for the
    search number [k]; [http_get k] is the listing the repository gives
    then.  The method does not read [self._dry]. *)
Fixpoint WaitForPackage_loop (repo name version : string) (sleep : Z)
    (http_get : nat -> outcome (list package)) (fuel k : nat)
  : list call * option (outcome (list package)) :=
  match fuel with
  | O => ([], None)
  | S fuel' =>
      match _search (http_get k) name version with
      | Raised e => ([HttpGetPackages repo], Some (Raised e))
      | Returned matched_packages =>
          if 0 <? List.length matched_packages
          then ([HttpGetPackages repo], Some (Returned matched_packages))
          else
            let (tr, r) := WaitForPackage_loop repo name version sleep
                             http_get fuel' (S k) in
            (HttpGetPackages repo :: Sleep sleep :: tr, r)
      end
  end.

Definition WaitForPackage_execute (_dry : bool) (repo name version : string)
    (sleep : Z) (http_get : nat -> outcome (list package)) (fuel : nat)
  : list call * option (outcome (list package)) :=
  WaitForPackage_loop repo name version sleep http_get fuel 0.

End Actors.

(** Number of searches in a trace. *)
Definition searches (tr : list call) : nat :=
  List.length (filter (fun c => match c with HttpGetPackages _ => true | _ => false end) tr).

(** The files a trace has asked to delete. *)
Fixpoint deleted_paths (tr : list call) : list (string * string) :=
  match tr with
  | [] => []
  | HttpDelete _ distro_version filename :: tr' =>
      (distro_version, filename) :: deleted_paths tr'
  | _ :: tr' => deleted_paths tr'
  end.

(** The packages that are left of [all_packages] after the calls of [tr]. *)
Definition repo_after (all_packages : list package) (tr : list call)
  : list package :=
  filter (fun p => negb (existsb (path_eqb (path_of p)) (deleted_paths tr)))
         all_packages.

(** The versions of the package [name] in a listing. *)
Definition versions_in (name : string) (packages : list package) : list package :=
  filter (fun p => String.eqb (p_name p) name) packages.

(** ** Facts about the listing of versions *)

Lemma path_eqb_eq (x y : string * string) : path_eqb x y = true <-> x = y.
Proof.
  destruct x as [a b], y as [c d]. unfold path_eqb. simpl.
  rewrite andb_true_iff, !String.eqb_eq. split.
  - intros [-> ->]. reflexivity.
  - intros H. injection H as -> ->. split; reflexivity.
Qed.

Lemma existsb_path (x : string * string) (paths : list (string * string)) :
  existsb (path_eqb x) paths = true <-> In x paths.
Proof.
  rewrite existsb_exists. split.
  - intros [y [Hy Heq]]. apply path_eqb_eq in Heq. now subst.
  - intros H. exists x. split; [exact H | now apply path_eqb_eq].
Qed.

Lemma In_insert_newest_first (x v : version_entry) (sorted : list version_entry) :
  In x (insert_newest_first v sorted) <-> x = v \/ In x sorted.
Proof.
  induction sorted as [|w rest IH]; simpl.
  - intuition.
  - destruct (v_created_at w <=? v_created_at v)%Z; simpl; [intuition|].
    rewrite IH. intuition.
Qed.

Lemma length_insert_newest_first (v : version_entry) (sorted : list version_entry) :
  List.length (insert_newest_first v sorted) = S (List.length sorted).
Proof.
  induction sorted as [|w rest IH]; simpl; [reflexivity|].
  destruct (v_created_at w <=? v_created_at v)%Z; simpl; [reflexivity|].
  now rewrite IH.
Qed.

Lemma In_sort_newest_first (x : version_entry) (versions : list version_entry) :
  In x (sort_newest_first versions) <-> In x versions.
Proof.
  induction versions as [|v versions IH]; simpl; [reflexivity|].
  rewrite In_insert_newest_first, IH. intuition.
Qed.

Lemma length_sort_newest_first (versions : list version_entry) :
  List.length (sort_newest_first versions) = List.length versions.
Proof.
  induction versions as [|v versions IH]; simpl; [reflexivity|].
  now rewrite length_insert_newest_first, IH.
Qed.

Lemma In_get_package_versions (name : string) (all_packages : list package)
    (v : version_entry) :
  In v (_get_package_versions name all_packages) ->
  exists p, In p all_packages /\ p_name p = name /\ v_path v = path_of p.
Proof.
  unfold _get_package_versions. rewrite In_sort_newest_first, in_map_iff.
  intros [p [<- Hp]]. apply filter_In in Hp. destruct Hp as [Hin Hname].
  exists p. split; [exact Hin|]. split; [now apply String.eqb_eq | reflexivity].
Qed.

Lemma length_get_package_versions (name : string) (all_packages : list package) :
  List.length (_get_package_versions name all_packages)
  = List.length (versions_in name all_packages).
Proof.
  unfold _get_package_versions, versions_in.
  now rewrite length_sort_newest_first, length_map.
Qed.

Lemma deleted_paths_app (tr tr' : list call) :
  deleted_paths (tr ++ tr') = deleted_paths tr ++ deleted_paths tr'.
Proof.
  induction tr as [|c tr IH]; [reflexivity|].
  destruct c; simpl; now rewrite IH.
Qed.

Lemma deleted_paths_no_mutation (tr : list call) :
  filter is_mutation tr = [] -> deleted_paths tr = [].
Proof.
  induction tr as [|c tr IH]; [reflexivity|].
  destruct c; simpl; intros H; try discriminate; now apply IH.
Qed.

(** Files with distinct paths: as many of them are hit by a list of paths
    as the list is long, at most. *)
Lemma hit_by_paths_le (packages : list package) (paths : list (string * string)) :
  NoDup (map path_of packages) ->
  List.length (filter (fun p => existsb (path_eqb (path_of p)) paths) packages)
  <= List.length paths.
Proof.
  intros Hnodup.
  rewrite <- (length_map path_of).
  apply NoDup_incl_length.
  - induction packages as [|p packages IH]; [constructor|].
    simpl in Hnodup. apply NoDup_cons_iff in Hnodup. destruct Hnodup as [Hp Hrest].
    simpl. destruct (existsb (path_eqb (path_of p)) paths); [|now apply IH].
    simpl. constructor; [|now apply IH].
    intros Hin. apply Hp. apply in_map_iff in Hin.
    destruct Hin as [q [Hq Hin]]. apply filter_In in Hin.
    apply in_map_iff. exists q. tauto.
  - intros x Hx. apply in_map_iff in Hx. destruct Hx as [p [<- Hp]].
    apply filter_In in Hp. now apply existsb_path.
Qed.

Lemma NoDup_paths_versions_in (name : string) (all_packages : list package) :
  NoDup (map path_of all_packages) ->
  NoDup (map path_of (versions_in name all_packages)).
Proof.
  unfold versions_in.
  induction all_packages as [|p ps IH]; intros H; [constructor|].
  simpl in H. apply NoDup_cons_iff in H. destruct H as [Hp Hps].
  simpl. destruct (String.eqb (p_name p) name); [|now apply IH].
  simpl. constructor; [|now apply IH].
  intros Hin. apply Hp. apply in_map_iff in Hin.
  destruct Hin as [q [Hq Hin]]. apply filter_In in Hin.
  apply in_map_iff. exists q. tauto.
Qed.

Lemma path_of_injective (all_packages : list package) (p q : package) :
  NoDup (map path_of all_packages) ->
  In p all_packages -> In q all_packages -> path_of p = path_of q -> p = q.
Proof.
  induction all_packages as [|a l IH]; intros Hnodup Hp Hq Heq; [destruct Hp|].
  simpl in Hnodup. apply NoDup_cons_iff in Hnodup. destruct Hnodup as [Ha Hl].
  destruct Hp as [-> | Hp], Hq as [-> | Hq].
  - reflexivity.
  - exfalso. apply Ha. rewrite Heq. now apply in_map.
  - exfalso. apply Ha. rewrite <- Heq. now apply in_map.
  - now apply IH.
Qed.

(** ** Facts about the loops of [_delete] *)

(** Names the run of the inner loop on the rest of the versions, and
    instantiates the induction hypothesis [IH] at its arguments. *)
Ltac run_rest IH :=
  match goal with
  | |- context [delete_versions ?now ?del ?dry ?repo ?old ?keep ?rest ?n ?p ?d] =>
      specialize (IH n p d);
      destruct (delete_versions now del dry repo old keep rest n p d) as [tr r]
  end.

Ltac run_rest_for IH x :=
  match goal with
  | |- context [delete_versions ?now ?del ?dry ?repo ?old ?keep ?rest ?n ?p ?d] =>
      specialize (IH n p d x);
      destruct (delete_versions now del dry repo old keep rest n p d) as [tr r]
  end.

Section DeleteFacts.

Variable now : nat -> Z.
Variable http_delete : nat -> outcome unit.
Variable _dry : bool.
Variable repo : string.
Variable older_than : Z.
Variable number_to_keep : Z.

Let inner := delete_versions now http_delete _dry repo older_than number_to_keep.
Let outer := delete_names now http_delete _dry repo older_than number_to_keep.

(** The inner loop asks for a deletion only while [number_in_repo] is above
    [number_to_keep], and counts each one. *)
Lemma delete_versions_bound :
  forall (package_versions : list version_entry) (number_in_repo : Z)
         (pos : nat) (deleted_packages : list version_entry),
    (Z.of_nat (List.length (deleted_paths
                 (fst (inner package_versions number_in_repo pos deleted_packages))))
     <= Z.max 0 (number_in_repo - number_to_keep))%Z.
Proof.
  unfold inner.
  induction package_versions as [|package rest IH];
    intros number_in_repo pos deleted_packages; [simpl; lia|].
  cbn [delete_versions].
  destruct (number_in_repo <=? number_to_keep)%Z eqn:Hkeep; [simpl; lia|].
  apply Z.leb_gt in Hkeep.
  destruct (negb (older_than =? 0)%Z
            && (now pos - v_created_at package <=? older_than * 1000000)%Z)%bool.
  - specialize (IH number_in_repo (S pos) deleted_packages).
    destruct (delete_versions now http_delete _dry repo older_than number_to_keep
                rest number_in_repo (S pos) deleted_packages) as [tr r].
    simpl in *. exact IH.
  - assert (Hclock : deleted_paths (if (older_than =? 0)%Z then [] else [ReadClock]) = [])
      by (destruct (older_than =? 0)%Z; reflexivity).
    destruct _dry.
    + run_rest IH.
      cbn [fst] in *. rewrite deleted_paths_app, Hclock. simpl. lia.
    + destruct (http_delete _) as [u|e].
      * run_rest IH.
        cbn [fst] in *. rewrite deleted_paths_app, Hclock. simpl.
        simpl in IH. lia.
      * cbn [fst]. rewrite deleted_paths_app, Hclock. simpl. lia.
Qed.

(** Every file the inner loop asks to delete is one of the versions it was
    given. *)
Lemma delete_versions_paths :
  forall (package_versions : list version_entry) (number_in_repo : Z)
         (pos : nat) (deleted_packages : list version_entry)
         (x : string * string),
    In x (deleted_paths
            (fst (inner package_versions number_in_repo pos deleted_packages))) ->
    exists v, In v package_versions /\ x = v_path v.
Proof.
  unfold inner.
  induction package_versions as [|package rest IH];
    intros number_in_repo pos deleted_packages x; [intros []|].
  cbn [delete_versions].
  destruct (number_in_repo <=? number_to_keep)%Z; [intros []|].
  destruct (negb (older_than =? 0)%Z
            && (now pos - v_created_at package <=? older_than * 1000000)%Z)%bool.
  - specialize (IH number_in_repo (S pos) deleted_packages x).
    destruct (delete_versions now http_delete _dry repo older_than number_to_keep
                rest number_in_repo (S pos) deleted_packages) as [tr r].
    simpl in *. intros H. destruct (IH H) as [v [Hv Hx]]. eauto.
  - assert (Hclock : deleted_paths (if (older_than =? 0)%Z then [] else [ReadClock]) = [])
      by (destruct (older_than =? 0)%Z; reflexivity).
    destruct _dry.
    + run_rest_for IH x.
      cbn [fst] in *. rewrite deleted_paths_app, Hclock. simpl.
      intros H. destruct (IH H) as [v [Hv Hx]]. eauto.
    + destruct (http_delete _) as [u|e].
      * run_rest_for IH x.
        cbn [fst] in *. rewrite deleted_paths_app, Hclock. simpl.
        intros [<- | H]; [exists package; split; [now left | reflexivity]|].
        destruct (IH H) as [v [Hv Hx]]. eauto.
      * cbn [fst]. rewrite deleted_paths_app, Hclock. simpl.
        intros [<- | []]. exists package. split; [now left | reflexivity].
Qed.

End DeleteFacts.

(** In dry mode the inner loop makes no call that changes the repository. *)
Lemma delete_versions_dry (now : nat -> Z) (http_delete : nat -> outcome unit)
    (repo : string) (older_than number_to_keep : Z) :
  forall (package_versions : list version_entry) (number_in_repo : Z)
         (pos : nat) (deleted_packages : list version_entry),
    filter is_mutation
      (fst (delete_versions now http_delete true repo older_than number_to_keep
              package_versions number_in_repo pos deleted_packages)) = [].
Proof.
  induction package_versions as [|package rest IH];
    intros number_in_repo pos deleted_packages; [reflexivity|].
  cbn [delete_versions].
  destruct (number_in_repo <=? number_to_keep)%Z; [reflexivity|].
  destruct (negb (older_than =? 0)%Z
            && (now pos - v_created_at package <=? older_than * 1000000)%Z)%bool.
  - specialize (IH number_in_repo (S pos) deleted_packages).
    destruct (delete_versions now http_delete true repo older_than number_to_keep
                rest number_in_repo (S pos) deleted_packages) as [tr r].
    simpl in *. exact IH.
  - run_rest IH.
    cbn [fst] in *. rewrite filter_app, IH.
    destruct (older_than =? 0)%Z; reflexivity.
Qed.

Lemma delete_names_dry (now : nat -> Z) (http_delete : nat -> outcome unit)
    (repo : string) (older_than number_to_keep : Z) (all_packages : list package) :
  forall (names : list string) (pos : nat) (deleted_packages : list version_entry),
    filter is_mutation
      (fst (delete_names now http_delete true repo older_than number_to_keep
              names all_packages pos deleted_packages)) = [].
Proof.
  induction names as [|name rest IH]; intros pos deleted_packages; [reflexivity|].
  cbn [delete_names].
  pose proof (delete_versions_dry now http_delete repo older_than number_to_keep
                (_get_package_versions name all_packages)
                (Z.of_nat (List.length (_get_package_versions name all_packages)))
                pos deleted_packages) as Hinner.
  destruct (delete_versions now http_delete true repo older_than number_to_keep
              (_get_package_versions name all_packages) _ pos deleted_packages)
    as [tr [deleted'|e]]; cbn [fst] in Hinner; [|exact Hinner].
  specialize (IH (pos + List.length tr) deleted').
  destruct (delete_names now http_delete true repo older_than number_to_keep
              rest all_packages (pos + List.length tr) deleted') as [tr' r].
  cbn [fst] in *. now rewrite filter_app, Hinner, IH.
Qed.

(** ** What is left in the repository *)

(** A package is hit by a list of paths when its file is among them. *)
Definition hit_by (paths : list (string * string)) (p : package) : bool :=
  existsb (path_eqb (path_of p)) paths.

Lemma filter_none (A : Type) (f : A -> bool) (l : list A) :
  (forall x, In x l -> f x = false) -> filter f l = [].
Proof.
  induction l as [|a l IH]; intros H; [reflexivity|].
  simpl. rewrite (H a (or_introl eq_refl)). apply IH.
  intros x Hx. apply H. now right.
Qed.

Lemma filter_swap (A : Type) (f g : A -> bool) (l : list A) :
  filter f (filter g l) = filter g (filter f l).
Proof.
  induction l as [|a l IH]; [reflexivity|].
  simpl. destruct (g a) eqn:Hg, (f a) eqn:Hf; simpl;
    rewrite ?Hg, ?Hf, IH; reflexivity.
Qed.

Lemma versions_in_repo_after (name : string) (all_packages : list package)
    (tr : list call) :
  versions_in name (repo_after all_packages tr)
  = filter (fun p => negb (hit_by (deleted_paths tr) p))
           (versions_in name all_packages).
Proof. unfold versions_in, repo_after, hit_by. apply filter_swap. Qed.

Section RepositoryFacts.

Variable now : nat -> Z.
Variable http_delete : nat -> outcome unit.
Variable _dry : bool.
Variable repo : string.
Variable older_than : Z.
Variable number_to_keep : Z.
Variable all_packages : list package.

Hypothesis distinct_files : NoDup (map path_of all_packages).

Let inner := delete_versions now http_delete _dry repo older_than number_to_keep.
Let outer := delete_names now http_delete _dry repo older_than number_to_keep.

(** A version hit by the deletions of the iteration for [name] is a
    version of [name]. *)
Lemma hit_by_iteration (name other : string) (number_in_repo : Z) (pos : nat)
    (deleted_packages : list version_entry) (p : package) :
  In p (versions_in other all_packages) ->
  hit_by (deleted_paths
            (fst (inner (_get_package_versions name all_packages)
                    number_in_repo pos deleted_packages))) p = true ->
  other = name.
Proof.
  intros Hp Hhit. apply filter_In in Hp. destruct Hp as [Hin Hname].
  apply String.eqb_eq in Hname.
  apply existsb_path in Hhit.
  apply delete_versions_paths in Hhit. destruct Hhit as [v [Hv Hpath]].
  apply In_get_package_versions in Hv. destruct Hv as [q [Hq [Hqname Hvq]]].
  assert (p = q) by (apply (path_of_injective all_packages); congruence).
  congruence.
Qed.

(** The outer loop asks only for files of the names it goes through. *)
Lemma delete_names_paths :
  forall (names : list string) (pos : nat) (deleted_packages : list version_entry)
         (other : string) (p : package),
    In p (versions_in other all_packages) ->
    hit_by (deleted_paths (fst (outer names all_packages pos deleted_packages))) p
    = true ->
    In other names.
Proof.
  unfold outer.
  induction names as [|name rest IH]; intros pos deleted_packages other p Hp Hhit.
  - discriminate Hhit.
  - cbn [delete_names] in Hhit.
    pose proof (hit_by_iteration name other
                  (Z.of_nat (List.length (_get_package_versions name all_packages)))
                  pos deleted_packages p Hp) as Hiter.
    unfold inner in Hiter.
    destruct (delete_versions now http_delete _dry repo older_than number_to_keep
                (_get_package_versions name all_packages) _ pos deleted_packages)
      as [tr [deleted'|e]]; cbn [fst] in Hiter.
    + specialize (IH (pos + List.length tr) deleted' other p Hp).
      destruct (delete_names now http_delete _dry repo older_than number_to_keep
                  rest all_packages (pos + List.length tr) deleted') as [tr' r].
      cbn [fst] in *. unfold hit_by in Hhit.
      rewrite deleted_paths_app, existsb_app in Hhit.
      apply orb_true_iff in Hhit. destruct Hhit as [Hhit | Hhit].
      * left. symmetry. now apply Hiter.
      * right. now apply IH.
    + cbn [fst] in Hhit. left. symmetry. now apply Hiter.
Qed.

(** Of the versions of a package, the deletions hit no more than those
    above [number_to_keep]. *)
Lemma delete_names_bound :
  forall (names : list string),
    NoDup names ->
    forall (pos : nat) (deleted_packages : list version_entry) (name : string),
      (Z.of_nat
         (List.length
            (filter (hit_by (deleted_paths
                               (fst (outer names all_packages pos deleted_packages))))
                    (versions_in name all_packages)))
       <= Z.max 0 (Z.of_nat (List.length (versions_in name all_packages))
                   - number_to_keep))%Z.
Proof.
  unfold outer.
  induction names as [|first rest IH]; intros Hnames pos deleted_packages name.
  - cbn [delete_names fst deleted_paths].
    rewrite filter_none by reflexivity. simpl. lia.
  - apply NoDup_cons_iff in Hnames. destruct Hnames as [Hfirst Hrest].
    cbn [delete_names].
    pose proof (fun p => hit_by_iteration first name
                  (Z.of_nat (List.length (_get_package_versions first all_packages)))
                  pos deleted_packages p) as Hiter.
    pose proof (delete_versions_bound now http_delete _dry repo older_than
                  number_to_keep (_get_package_versions first all_packages)
                  (Z.of_nat (List.length (_get_package_versions first all_packages)))
                  pos deleted_packages) as Hbound.
    unfold inner in Hiter.
    destruct (delete_versions now http_delete _dry repo older_than number_to_keep
                (_get_package_versions first all_packages) _ pos deleted_packages)
      as [tr result]; cbn [fst] in Hiter, Hbound.
    rewrite length_get_package_versions in Hbound.
    assert (Hthis : name = first ->
              (Z.of_nat (List.length (filter (hit_by (deleted_paths tr))
                                        (versions_in name all_packages)))
               <= Z.max 0 (Z.of_nat (List.length (versions_in name all_packages))
                           - number_to_keep))%Z).
    { intros ->.
      pose proof (hit_by_paths_le (versions_in first all_packages) (deleted_paths tr)
                    (NoDup_paths_versions_in first all_packages distinct_files)) as Hle.
      unfold hit_by. lia. }
    assert (Hother : name <> first ->
              filter (hit_by (deleted_paths tr)) (versions_in name all_packages) = []).
    { intros Hne. apply filter_none. intros p Hp.
      destruct (hit_by (deleted_paths tr) p) eqn:Hhit; [|reflexivity].
      exfalso. apply Hne. now apply (Hiter p). }
    destruct result as [deleted'|e]; cbn [fst].
    + specialize (IH Hrest (pos + List.length tr) deleted' name).
      pose proof (fun p => delete_names_paths rest (pos + List.length tr) deleted'
                             name p) as Hlater.
      unfold outer in Hlater.
      destruct (delete_names now http_delete _dry repo older_than number_to_keep
                  rest all_packages (pos + List.length tr) deleted') as [tr' r].
      cbn [fst] in *.
      destruct (string_dec name first) as [Heq | Hne].
      * rewrite (filter_ext_in
                   (hit_by (deleted_paths (tr ++ tr')))
                   (hit_by (deleted_paths tr))); [now apply Hthis|].
        intros p Hp. unfold hit_by. rewrite deleted_paths_app, existsb_app.
        destruct (existsb (path_eqb (path_of p)) (deleted_paths tr')) eqn:Hhit;
          [|now rewrite orb_false_r].
        exfalso. apply Hfirst. rewrite <- Heq. now apply (Hlater p).
      * rewrite (filter_ext_in
                   (hit_by (deleted_paths (tr ++ tr')))
                   (hit_by (deleted_paths tr'))); [exact IH|].
        intros p Hp. unfold hit_by. rewrite deleted_paths_app, existsb_app.
        destruct (existsb (path_eqb (path_of p)) (deleted_paths tr)) eqn:Hhit;
          [|reflexivity].
        exfalso. apply Hne. now apply (Hiter p).
    + destruct (string_dec name first) as [Heq | Hne]; [now apply Hthis|].
      rewrite (Hother Hne). simpl. lia.
Qed.

End RepositoryFacts.

(** C10. Whatever the repository lists (each file once), whatever
    [number_to_keep], [older_than] and the pattern are, in dry mode or not,
    and whether or not a call fails on the way: of every package, at least
    [min(number_to_keep, number of versions listed)] versions are left after
    [_delete]. *)
Theorem delete_leaves_number_to_keep :
  forall (re_compile : string -> outcome (string -> bool))
         (now : nat -> Z) (http_delete : nat -> outcome unit)
         (_dry : bool) (repo : string) (older_than number_to_keep : Z)
         (packages_to_delete : string) (all_packages : list package)
         (name : string),
    NoDup (map path_of all_packages) ->
    (Z.min number_to_keep (Z.of_nat (List.length (versions_in name all_packages)))
     <= Z.of_nat
          (List.length
             (versions_in name
                (repo_after all_packages
                   (fst (_delete re_compile now http_delete _dry repo older_than
                           number_to_keep packages_to_delete
                           (Returned all_packages)))))))%Z.
Proof.
  intros re_compile now http_delete _dry repo older_than number_to_keep
         packages_to_delete all_packages name Hfiles.
  rewrite versions_in_repo_after.
  pose proof (filter_length
                (hit_by (deleted_paths
                   (fst (_delete re_compile now http_delete _dry repo older_than
                           number_to_keep packages_to_delete (Returned all_packages)))))
                (versions_in name all_packages)) as Hsplit.
  assert (Hhit :
            (Z.of_nat
               (List.length
                  (filter (hit_by (deleted_paths
                     (fst (_delete re_compile now http_delete _dry repo older_than
                             number_to_keep packages_to_delete
                             (Returned all_packages)))))
                     (versions_in name all_packages)))
             <= Z.max 0 (Z.of_nat (List.length (versions_in name all_packages))
                         - number_to_keep))%Z).
  { unfold _delete, _get_packages_list_to_delete.
    destruct (re_compile packages_to_delete) as [pattern_match|e].
    - pose proof (delete_names_bound now http_delete _dry repo older_than
                    number_to_keep all_packages Hfiles
                    (nodup string_dec
                       (map p_name (filter (fun p => pattern_match (p_name p))
                                           all_packages)))
                    (NoDup_nodup string_dec _) 1 [] name) as Hbound.
      destruct (delete_names now http_delete _dry repo older_than number_to_keep
                  (nodup string_dec
                     (map p_name (filter (fun p => pattern_match (p_name p))
                                         all_packages)))
                  all_packages 1 []) as [tr r].
      cbn [fst deleted_paths] in *. exact Hbound.
    - cbn [fst deleted_paths]. rewrite filter_none by reflexivity. simpl. lia. }
  lia.
Qed.

(** A repository with three versions of one package and one version of
    another, for the examples. *)
Definition sample_packages : list package :=
  [Package "deleteme" "1.0" 1000000 "ubuntu/trusty" "/acct/test/packages/ubuntu/trusty/deleteme_1.0.deb";
   Package "deleteme" "1.1" 2000000 "ubuntu/trusty" "/acct/test/packages/ubuntu/trusty/deleteme_1.1.deb";
   Package "keepme" "0.1" 1500000 "ubuntu/trusty" "/acct/test/packages/ubuntu/trusty/keepme_0.1.deb";
   Package "deleteme" "1.2" 3000000 "ubuntu/trusty" "/acct/test/packages/ubuntu/trusty/deleteme_1.2.deb"].

(** A stand-in for [re.compile]: the pattern is a literal, matched at the
    start of the string. *)
Definition literal_re_compile (pattern : string) : outcome (string -> bool) :=
  Returned (String.prefix pattern).

Lemma sample_packages_distinct : NoDup (map path_of sample_packages).
Proof.
  repeat constructor; simpl; intuition discriminate.
Defined.

Lemma delete_leaves_number_to_keep_witness :
  (Z.min 2 (Z.of_nat (List.length (versions_in "deleteme" sample_packages)))
   <= Z.of_nat
        (List.length
           (versions_in "deleteme"
              (repo_after sample_packages
                 (fst (_delete literal_re_compile (fun _ => 0%Z)
                         (fun _ => Returned tt) false "test" 0 2 "deleteme"
                         (Returned sample_packages)))))))%Z.
Proof.
  exact (delete_leaves_number_to_keep literal_re_compile (fun _ => 0%Z)
           (fun _ => Returned tt) false "test" 0 2 "deleteme" sample_packages
           "deleteme" sample_packages_distinct).
Defined.

(** The run of the witness: with three versions and two to keep, one file is
    deleted, the first of the list sorted newest first. *)
Example delete_sample_run :
  _delete literal_re_compile (fun _ => 0%Z) (fun _ => Returned tt)
          false "test" 0 2 "deleteme" (Returned sample_packages)
  = ([HttpGetPackages "test";
      HttpDelete "test" "ubuntu/trusty" "deleteme_1.2.deb"],
     Returned [VersionEntry 3000000 "ubuntu/trusty" "deleteme_1.2.deb" "deleteme"]).
Proof. reflexivity. Qed.

(** ** WaitForPackage in dry mode *)

(** While the repository lists no matching package, the loop searches again,
    in dry mode as otherwise. *)
Lemma WaitForPackage_loop_no_match
    (re_compile : string -> outcome (string -> bool))
    (repo name version : string) (sleep : Z)
    (http_get : nat -> outcome (list package)) :
  (forall k, _search re_compile (http_get k) name version = Returned []) ->
  forall fuel k,
    snd (WaitForPackage_loop re_compile repo name version sleep http_get fuel k)
    = None
    /\ searches (fst (WaitForPackage_loop re_compile repo name version sleep
                        http_get fuel k)) = fuel.
Proof.
  intros Hnone fuel. induction fuel as [|fuel IH]; intros k; [split; reflexivity|].
  cbn [WaitForPackage_loop]. rewrite Hnone. cbn [List.length Nat.ltb Nat.leb].
  destruct (IH (S k)) as [IHr IHn].
  destruct (WaitForPackage_loop re_compile repo name version sleep http_get
              fuel (S k)) as [tr r].
  simpl in *. split; [exact IHr | now rewrite <- IHn].
Qed.

(** C6, at the failing input: [WaitForPackage] in dry mode on a repository
    that lists nothing.  After any number [fuel] of searches the loop has
    made [fuel] evaluations of its condition and has not ended. *)
Theorem WaitForPackage_dry_keeps_searching :
  forall (repo name version : string) (sleep : Z) (fuel : nat),
    snd (WaitForPackage_execute literal_re_compile true repo name version sleep
           (fun _ => Returned []) fuel) = None
    /\ searches (fst (WaitForPackage_execute literal_re_compile true repo name
                        version sleep (fun _ => Returned []) fuel)) = fuel.
Proof.
  intros repo name version sleep fuel. unfold WaitForPackage_execute.
  apply WaitForPackage_loop_no_match. intros k. reflexivity.
Qed.

Example WaitForPackage_dry_three_searches :
  WaitForPackage_execute literal_re_compile true "test" "findme" "0.1" 10
    (fun _ => Returned []) 3
  = ([HttpGetPackages "test"; Sleep 10; HttpGetPackages "test"; Sleep 10;
      HttpGetPackages "test"; Sleep 10], None).
Proof. reflexivity. Qed.

End Packagecloud.

(** * Dry mode and mutations *)

Module DryRun.

(** C9. In dry mode [RegisterInstance._execute] and
    [DeregisterInstance._execute] end without a call to
    [register_instances] or [deregister_instances], and [_delete] makes no
    [http_delete] call: the traces hold no mutation, whatever the outside
    answers. *)
Theorem dry_run_makes_no_mutation :
  forall (elb : string) (instance_id : Elb.instance_id_option)
         (find_elb : outcome unit) (operation : nat -> outcome unit) (fuel : nat)
         (re_compile : string -> outcome (string -> bool))
         (now : nat -> Z) (http_delete : nat -> outcome unit)
         (repo : string) (older_than number_to_keep : Z)
         (packages_to_delete : string)
         (http_get : outcome (list Packagecloud.package)),
    (filter is_mutation
       (fst (Elb.RegisterInstance_execute true elb instance_id find_elb
               operation fuel)) = []
     /\ snd (Elb.RegisterInstance_execute true elb instance_id find_elb
               operation fuel) <> None)
    /\ (filter is_mutation
          (fst (Elb.DeregisterInstance_execute true elb instance_id find_elb
                  operation fuel)) = []
        /\ snd (Elb.DeregisterInstance_execute true elb instance_id find_elb
                  operation fuel) <> None)
    /\ filter is_mutation
         (fst (Packagecloud._delete re_compile now http_delete true repo
                 older_than number_to_keep packages_to_delete http_get)) = [].
Proof.
  intros elb instance_id find_elb operation fuel re_compile now http_delete
         repo older_than number_to_keep packages_to_delete http_get.
  split; [|split].
  - unfold Elb.RegisterInstance_execute.
    destruct find_elb as [u|e]; [|split; [reflexivity | discriminate]].
    destruct (Elb.instances_of instance_id) as [instances|e];
      split; try reflexivity; discriminate.
  - unfold Elb.DeregisterInstance_execute.
    destruct find_elb as [u|e]; [|split; [reflexivity | discriminate]].
    destruct (Elb.instances_of instance_id) as [instances|e];
      split; try reflexivity; discriminate.
  - unfold Packagecloud._delete.
    destruct http_get as [all_packages|e]; [|reflexivity].
    destruct (Packagecloud._get_packages_list_to_delete re_compile
                packages_to_delete all_packages) as [names|e]; [|reflexivity].
    pose proof (Packagecloud.delete_names_dry now http_delete repo older_than
                  number_to_keep all_packages names 1 []) as Hdry.
    destruct (Packagecloud.delete_names now http_delete true repo older_than
                number_to_keep names all_packages 1 []) as [tr r].
    cbn [fst] in *. simpl. exact Hdry.
Qed.

(** Outside dry mode the same actors do make the calls. *)
Example register_outside_dry_mode :
  Elb.RegisterInstance_execute false "prod" (Elb.IdStr "i-123") (Returned tt)
    (fun _ => Returned tt) 1
  = ([FindElb "prod"; RegisterInstances ["i-123"]], Some (Returned tt)).
Proof. reflexivity. Qed.

Example delete_in_dry_mode :
  Packagecloud._delete Packagecloud.literal_re_compile (fun _ => 0%Z)
    (fun _ => Returned tt) true "test" 0 2 "deleteme"
    (Returned Packagecloud.sample_packages)
  = ([HttpGetPackages "test"],
     Returned [Packagecloud.VersionEntry 3000000 "ubuntu/trusty"
                 "deleteme_1.2.deb" "deleteme"]).
Proof. reflexivity. Qed.

End DryRun.

(** * Groups: outcomes, construction errors and nested trees *)

Module GroupOutcome.

Import Group.

(** ** Definitions *)

(** The bodies of the concrete actors of a tree, in the order of the
    script. *)
Fixpoint leaves (a : actor) : list coroutine :=
  match a with
  | Leaf _ _ body => [body]
  | GroupActor _ _ _ actions => flat_map leaves actions
  end.

(** The value a coroutine returns; [false] stands in for one that raises. *)
Definition returned_value (c : coroutine) : bool :=
  match result c with
  | Returned ret => ret
  | Raised _ => false
  end.

(** What [BaseGroupActor._execute] makes of the value of
    [self._run_actions()]. *)
Definition aggregate (ret : outcome (list bool)) : outcome bool :=
  match ret with
  | Returned rets => Returned (py_all rets)
  | Raised e => Raised e
  end.

(** Induction on trees, with the hypothesis on every child of a group. *)
Lemma actor_nested_ind (P : actor -> Prop) :
  (forall desc dry body, P (Leaf desc dry body)) ->
  (forall mode desc dry actions,
      Forall P actions -> P (GroupActor mode desc dry actions)) ->
  forall a, P a.
Proof.
  intros Hleaf Hgroup. fix IH 1.
  intros [desc dry body | mode desc dry actions]; [apply Hleaf|].
  apply Hgroup.
  induction actions as [|a actions IHactions]; constructor;
    [apply IH | exact IHactions].
Qed.

(** ** The outcome of a group *)

(** The loop of [Sync._run_actions] ends with what [gather] makes of the
    children's outcomes: it stops at the first child that raises, with that
    exception. *)
Lemma Sync_loop_outcome :
  forall (actions : list coroutine) (i : nat) (returns : list bool),
    snd (Sync_loop i actions returns)
    = match gather (map result actions) with
      | Returned rets => Returned (returns ++ rets)
      | Raised e => Raised e
      end.
Proof.
  induction actions as [|act actions IH]; intros i returns.
  - simpl. now rewrite app_nil_r.
  - cbn [Sync_loop map gather].
    destruct (call_then_wait i act) as [_ Hres].
    destruct (call_execute i act) as [started f]; simpl in Hres.
    destruct (wait_for i f) as [waited r]; simpl in Hres. subst r.
    destruct (result act) as [ret|e]; [|reflexivity].
    specialize (IH (S i) (returns ++ [ret])).
    destruct (Sync_loop (S i) actions (returns ++ [ret])) as [tr out].
    simpl in *. rewrite IH.
    destruct (gather (map result actions)); [|reflexivity].
    now rewrite <- app_assoc.
Qed.

Lemma execute_outcome (mode : group_mode) (pick : nat -> nat)
    (actions : list coroutine) :
  snd (_execute mode pick actions)
  = Some (aggregate (gather (map result actions))).
Proof.
  unfold _execute. destruct mode; cbn [_run_actions].
  - unfold Sync_run_actions.
    pose proof (Sync_loop_outcome actions 0 []) as H.
    destruct (Sync_loop 0 actions []) as [tr out]. simpl in H. subst out.
    destruct (gather (map result actions)); reflexivity.
  - destruct (Async_run_actions_spec pick actions) as [joined [Hrun _]].
    rewrite Hrun. destruct (gather (map result actions)); reflexivity.
Qed.


Lemma gather_first_raise (before : list coroutine) (rets : list bool)
    (act : coroutine) (after : list coroutine) (e : exn) :
  map result before = map Returned rets ->
  result act = Raised e ->
  gather (map result (before ++ act :: after)) = Raised e.
Proof.
  revert rets. induction before as [|b before IH]; intros rets H He.
  - simpl. now rewrite He.
  - destruct rets as [|ret rets]; [discriminate|].
    simpl in H. injection H as Hb Hrest.
    simpl. rewrite Hb, (IH rets Hrest He). reflexivity.
Qed.

(** X5. In either mode, when a child's [execute] raises and the children
    before it in the list returned, the group raises that child's exception,
    whatever the children after it do (return [False], raise something
    else). *)
Theorem group_raises_first_exception_in_list_order :
  forall (mode : group_mode) (pick : nat -> nat)
         (before : list coroutine) (rets : list bool) (act : coroutine)
         (after : list coroutine) (e : exn),
    map result before = map Returned rets ->
    result act = Raised e ->
    snd (_execute mode pick (before ++ act :: after)) = Some (Raised e).
Proof.
  intros mode pick before rets act after e H He.
  now rewrite execute_outcome, (gather_first_raise before rets act after e H He).
Qed.

Lemma group_raises_first_exception_in_list_order_witness :
  snd (_execute Async (fun t => 2 * t)
         ([Coroutine 3 (Returned false)]
          ++ Coroutine 1 (Raised UnrecoverableActorFailure)
          :: [Coroutine 0 (Raised InvalidOptions); Coroutine 2 (Returned true)]))
  = Some (Raised UnrecoverableActorFailure).
Proof.
  exact (group_raises_first_exception_in_list_order Async (fun t => 2 * t)
           [Coroutine 3 (Returned false)] [false]
           (Coroutine 1 (Raised UnrecoverableActorFailure))
           [Coroutine 0 (Raised InvalidOptions); Coroutine 2 (Returned true)]
           UnrecoverableActorFailure eq_refl eq_refl).
Defined.

(** ** Nested groups *)

Lemma py_all_app (l l' : list bool) : py_all (l ++ l') = py_all l && py_all l'.
Proof. unfold py_all. apply forallb_app. Qed.

Lemma behaviour_of_group (pick : nat -> nat) (mode : group_mode)
    (desc : string) (dry : bool) (actions : list actor) :
  result (behaviour pick (GroupActor mode desc dry actions))
  = aggregate (gather (map result (map (behaviour pick) actions))).
Proof.
  cbn [behaviour]. unfold as_coroutine. cbn [result].
  now rewrite execute_outcome.
Qed.

(** When every concrete actor of a tree returns, what the tree gives its
    parent is the conjunction of their results. *)
Lemma behaviour_all_leaves_return (pick : nat -> nat) :
  forall a,
    Forall (fun c => exists ret, result c = Returned ret) (leaves a) ->
    result (behaviour pick a) = Returned (py_all (map returned_value (leaves a))).
Proof.
  induction a as [desc dry body | mode desc dry actions IH] using actor_nested_ind;
    intros Hleaves.
  - cbn [leaves behaviour map] in *.
    apply Forall_inv in Hleaves. destruct Hleaves as [ret Hret].
    unfold returned_value. rewrite Hret. simpl. now rewrite andb_true_r.
  - rewrite behaviour_of_group. cbn [leaves] in *.
    assert (Hgather :
              gather (map result (map (behaviour pick) actions))
              = Returned (map (fun child =>
                                 py_all (map returned_value (leaves child)))
                              actions)).
    { induction actions as [|child actions IHactions]; [reflexivity|].
      apply Forall_cons_iff in IH. destruct IH as [IHchild IHrest].
      cbn [flat_map] in Hleaves. apply Forall_app in Hleaves.
      destruct Hleaves as [Hchild Hrest].
      cbn [map gather]. rewrite (IHchild Hchild), (IHactions IHrest Hrest).
      reflexivity. }
    rewrite Hgather. cbn [aggregate]. f_equal.
    clear. induction actions as [|child actions IHactions]; [reflexivity|].
    cbn [map flat_map]. rewrite map_app, py_all_app, <- IHactions.
    reflexivity.
Qed.

(** X6. A tree of groups, however nested and whatever the modes and the
    scheduler, whose concrete actors all return: [execute] on the root group
    returns the conjunction of the results of all the concrete actors, so
    True exactly when every one of them returned True. *)
Theorem tree_result_is_and_of_its_leaves :
  forall (pick : nat -> nat) (mode : group_mode) (desc : string) (dry : bool)
         (actions : list actor),
    Forall (fun c => exists ret, result c = Returned ret)
           (leaves (GroupActor mode desc dry actions)) ->
    snd (execute pick (GroupActor mode desc dry actions))
    = Some (Returned (py_all (map returned_value
                                  (leaves (GroupActor mode desc dry actions))))).
Proof.
  intros pick mode desc dry actions Hleaves.
  pose proof (behaviour_all_leaves_return pick
                (GroupActor mode desc dry actions) Hleaves) as H.
  rewrite behaviour_of_group in H.
  cbn [execute]. now rewrite execute_outcome, H.
Qed.

Lemma tree_result_is_and_of_its_leaves_witness :
  snd (execute (fun t => t)
         (GroupActor Sync "stages" false
            [Leaf "first" false (Coroutine 1 (Returned true));
             GroupActor Async "parallel" false
               [Leaf "left" false (Coroutine 2 (Returned false));
                Leaf "right" false (Coroutine 0 (Returned true))]]))
  = Some (Returned (py_all (map returned_value
       (leaves (GroupActor Sync "stages" false
            [Leaf "first" false (Coroutine 1 (Returned true));
             GroupActor Async "parallel" false
               [Leaf "left" false (Coroutine 2 (Returned false));
                Leaf "right" false (Coroutine 0 (Returned true))]]))))).
Proof.
  refine (tree_result_is_and_of_its_leaves (fun t => t) Sync "stages" false
            [Leaf "first" false (Coroutine 1 (Returned true));
             GroupActor Async "parallel" false
               [Leaf "left" false (Coroutine 2 (Returned false));
                Leaf "right" false (Coroutine 0 (Returned true))]] _).
  repeat constructor; eexists; reflexivity.
Defined.

(** ** Construction errors *)

Lemma build_actions_first_refusal
    (get_actor' : config -> bool -> outcome actor) (dry : bool) :
  forall (before : list config) (children actions : list actor)
         (act : config) (after : list config) (e : exn),
    Forall2 (fun c child => get_actor' c dry = Returned child) before children ->
    get_actor' act dry = Raised e ->
    _build_actions get_actor' dry (before ++ act :: after) actions = Raised e.
Proof.
  induction before as [|c before IH]; intros children actions act after e Hall He.
  - cbn [app _build_actions]. now rewrite He.
  - inversion Hall as [|c' child before' children' Hc Hrest]; subst.
    cbn [app _build_actions]. rewrite Hc.
    exact (IH children' (actions ++ [child]) act after e Hrest He).
Qed.

(** X7. A group's constructor raises the exception of the first child
    specification, in the order of the ['acts'] list, that cannot be built:
    the specifications after it are not looked at, valid or not. *)
Theorem group_construction_raises_first_refusal :
  forall (leaf_init : string -> string -> list (string * string) ->
                      bool -> outcome coroutine)
         (actor desc : string) (options : list (string * string))
         (mode : group_mode) (dry : bool)
         (before : list config) (children : list Group.actor)
         (act : config) (after : list config) (e : exn),
    group_class actor = Some mode ->
    Forall2 (fun c child => get_actor leaf_init c dry = Returned child)
            before children ->
    get_actor leaf_init act dry = Raised e ->
    get_actor leaf_init (Config actor desc options (before ++ act :: after)) dry
    = Raised e.
Proof.
  intros leaf_init actor desc options mode dry before children act after e
         Hmode Hall He.
  rewrite (get_actor_group leaf_init actor desc options _ dry mode Hmode).
  unfold BaseGroupActor_init.
  now rewrite (build_actions_first_refusal (get_actor leaf_init) dry
                 before children [] act after e Hall He).
Qed.

(** A constructor that tells a missing option from an unknown actor. *)
Definition strict_leaf_init (actor desc : string)
    (options : list (string * string)) (dry : bool) : outcome coroutine :=
  if String.eqb actor "misc.Sleep" then
    if existsb (fun kv => String.eqb (fst kv) "sleep") options
    then Returned (Coroutine 1 (Returned true))
    else Raised InvalidOptions
  else Raised UnrecoverableActorFailure.

Lemma group_construction_raises_first_refusal_witness :
  get_actor strict_leaf_init
    (Config "group.Async" "all" []
       ([sample_sleep "first"]
        ++ Config "misc.Sleep" "second" [] []
        :: [Config "misc.Unknown" "third" [] []; sample_sleep "fourth"]))
    true
  = Raised InvalidOptions.
Proof.
  refine (group_construction_raises_first_refusal strict_leaf_init
            "group.Async" "all" [] Async true
            [sample_sleep "first"]
            [Leaf "first" true (Coroutine 1 (Returned true))]
            (Config "misc.Sleep" "second" [] [])
            [Config "misc.Unknown" "third" [] []; sample_sleep "fourth"]
            InvalidOptions eq_refl _ eq_refl).
  repeat constructor.
Defined.

End GroupOutcome.

(** * ELB actors: construction, the poll loop and the register calls *)

Module ElbActors.

Import Elb.

(** ** Definitions *)

(** A [RegionInfo] of [boto.ec2.elb.regions()]. *)
Record region_info : Type := RegionInfo {
  region_name : string;
  region_endpoint : string
}.

(** [WaitUntilHealthy._get_region]: the regions of that name, of which
    there must be exactly one. *)
Definition _get_region (all_regions : list region_info) (region : string)
  : outcome region_info :=
  let matched :=
    filter (fun r => String.eqb (region_name r) region) all_regions in
  if negb (Nat.eqb (List.length matched) 1)
  then Raised UnrecoverableActorFailure
  else match matched with
       | r :: _ => Returned r
       | [] => Raised UnrecoverableActorFailure
       end.

(** Truth value of a setting read from the environment: [None] and the
    empty string are false. *)
Definition is_set (setting : option string) : bool :=
  match setting with
  | Some (String _ _) => true
  | Some EmptyString | None => false
  end.

(** [WaitUntilHealthy.__init__]: [base_init] is the outcome of
    [super().__init__] (kingpin.actors.aws.base, not part of the sources);
    the result is the region the [ELBConnection] is made for. *)
Definition WaitUntilHealthy_init (base_init : outcome unit)
    (all_regions : list region_info)
    (AWS_ACCESS_KEY_ID AWS_SECRET_ACCESS_KEY : option string)
    (region : string) : outcome region_info :=
  match base_init with
  | Raised e => Raised e
  | Returned _ =>
      match _get_region all_regions region with
      | Raised e => Raised e
      | Returned r =>
          if negb (is_set AWS_ACCESS_KEY_ID && is_set AWS_SECRET_ACCESS_KEY)
          then Raised InvalidCredentials
          else Returned r
      end
  end.

(** ** The region *)

Lemma length_matching_regions (all_regions : list region_info) (region : string) :
  List.length (filter (fun r => String.eqb (region_name r) region) all_regions)
  = count_occ string_dec (map region_name all_regions) region.
Proof.
  induction all_regions as [|r rs IH]; [reflexivity|].
  cbn [filter map count_occ].
  destruct (String.eqb_spec (region_name r) region) as [Heq | Hne];
    destruct (string_dec (region_name r) region); try contradiction;
    simpl; now rewrite IH.
Qed.

Lemma get_region_cases (all_regions : list region_info) (region : string) :
  (count_occ string_dec (map region_name all_regions) region = 1
   /\ exists r, _get_region all_regions region = Returned r
                /\ In r all_regions /\ region_name r = region)
  \/ (count_occ string_dec (map region_name all_regions) region <> 1
      /\ _get_region all_regions region = Raised UnrecoverableActorFailure).
Proof.
  unfold _get_region. rewrite <- length_matching_regions.
  set (matched := filter (fun r => String.eqb (region_name r) region) all_regions).
  assert (Hmatched : forall r, In r matched ->
                               In r all_regions /\ region_name r = region).
  { intros r Hr. apply filter_In in Hr. destruct Hr as [Hin Hname].
    split; [exact Hin | now apply String.eqb_eq]. }
  destruct (Nat.eqb_spec (List.length matched) 1) as [Hone | Hnot].
  - left. split; [exact Hone|]. cbn [negb].
    destruct matched as [|r rest]; [discriminate|].
    exists r. split; [reflexivity|]. apply Hmatched. now left.
  - right. split; [exact Hnot | reflexivity].
Qed.

(** X8. [_get_region] returns a region exactly when one and only one of the
    known regions has the given name, and then it is that region; with no
    such region, or with several, it raises [UnrecoverableActorFailure]. *)
Theorem get_region_needs_exactly_one_match :
  forall (all_regions : list region_info) (region : string),
    (count_occ string_dec (map region_name all_regions) region = 1 ->
     exists r, _get_region all_regions region = Returned r
               /\ In r all_regions /\ region_name r = region)
    /\ (count_occ string_dec (map region_name all_regions) region <> 1 ->
        _get_region all_regions region = Raised UnrecoverableActorFailure).
Proof.
  intros all_regions region.
  destruct (get_region_cases all_regions region) as [[Hone Hr] | [Hnot Hr]];
    split; intros H; try contradiction; exact Hr.
Qed.

Lemma get_region_needs_exactly_one_match_witness :
  (exists r,
      _get_region [RegionInfo "us-east-1" "a"; RegionInfo "us-west-2" "b"]
                  "us-west-2" = Returned r
      /\ In r [RegionInfo "us-east-1" "a"; RegionInfo "us-west-2" "b"]
      /\ region_name r = "us-west-2")
  /\ _get_region [RegionInfo "us-east-1" "a"; RegionInfo "us-east-1" "c"]
                 "us-east-1" = Raised UnrecoverableActorFailure.
Proof.
  split.
  - exact (proj1 (get_region_needs_exactly_one_match
                    [RegionInfo "us-east-1" "a"; RegionInfo "us-west-2" "b"]
                    "us-west-2") eq_refl).
  - refine (proj2 (get_region_needs_exactly_one_match
                     [RegionInfo "us-east-1" "a"; RegionInfo "us-east-1" "c"]
                     "us-east-1") _).
    discriminate.
Defined.

(** X9. [WaitUntilHealthy.__init__] looks the region up before it looks at
    the credentials: an unknown or ambiguous region raises
    [UnrecoverableActorFailure] whatever the credentials are; with the
    region found, a missing or empty access key or secret raises
    [InvalidCredentials]; and an actor that was constructed has both
    credentials set and a connection for a known region of the requested
    name. *)
Theorem WaitUntilHealthy_init_checks :
  forall (all_regions : list region_info) (key secret : option string)
         (region : string),
    (count_occ string_dec (map region_name all_regions) region <> 1 ->
     WaitUntilHealthy_init (Returned tt) all_regions key secret region
     = Raised UnrecoverableActorFailure)
    /\ (count_occ string_dec (map region_name all_regions) region = 1 ->
        is_set key && is_set secret = false ->
        WaitUntilHealthy_init (Returned tt) all_regions key secret region
        = Raised InvalidCredentials)
    /\ (forall base_init r,
          WaitUntilHealthy_init base_init all_regions key secret region
          = Returned r ->
          is_set key = true /\ is_set secret = true
          /\ In r all_regions /\ region_name r = region).
Proof.
  intros all_regions key secret region.
  unfold WaitUntilHealthy_init.
  destruct (get_region_cases all_regions region)
    as [[Hone [r [Hr Hin]]] | [Hnot Hr]]; rewrite Hr.
  - split; [intros H; contradiction|]. split.
    + intros _ Hcred. now rewrite Hcred.
    + intros base_init r' H.
      destruct base_init as [u|e]; [|discriminate].
      destruct (is_set key && is_set secret) eqn:Hcred; [|discriminate].
      injection H as <-. apply andb_true_iff in Hcred.
      destruct Hcred as [Hkey Hsecret].
      split; [exact Hkey|]. split; [exact Hsecret | exact Hin].
  - split; [reflexivity|]. split; [intros H; contradiction|].
    intros base_init r' H. destruct base_init; discriminate.
Qed.

Lemma WaitUntilHealthy_init_checks_witness :
  WaitUntilHealthy_init (Returned tt) [RegionInfo "us-east-1" "a"]
    None None "eu-west-9" = Raised UnrecoverableActorFailure
  /\ WaitUntilHealthy_init (Returned tt) [RegionInfo "us-east-1" "a"]
       (Some "AKIA") (Some "") "us-east-1" = Raised InvalidCredentials.
Proof.
  split.
  - refine (proj1 (WaitUntilHealthy_init_checks [RegionInfo "us-east-1" "a"]
                     None None "eu-west-9") _).
    discriminate.
  - exact (proj1 (proj2 (WaitUntilHealthy_init_checks [RegionInfo "us-east-1" "a"]
                           (Some "AKIA") (Some "") "us-east-1"))
             eq_refl eq_refl).
Defined.

(** ** The poll loop outside dry mode *)

(** What the loop makes of the answer that ends it. *)
Definition loop_result (answer : outcome bool) : outcome unit :=
  match answer with
  | Raised e => Raised e
  | Returned _ => Returned tt
  end.

(** [k] rounds of evaluation and sleep, then the evaluation that ends the
    loop. *)
Definition polls (k : nat) : list call :=
  concat (repeat [GetInstanceHealth; Sleep 3] k) ++ [GetInstanceHealth].

Lemma WaitUntilHealthy_loop_first_answer (healthy : nat -> outcome bool)
    (answer : outcome bool) :
  answer <> Returned false ->
  forall (k fuel start : nat),
    (forall i, i < k -> healthy (start + i) = Returned false) ->
    healthy (start + k) = answer ->
    k < fuel ->
    WaitUntilHealthy_loop false healthy fuel start
    = (polls k, Some (loop_result answer)).
Proof.
  intros Hanswer. induction k as [|k IH]; intros fuel start Hbefore Hk Hfuel.
  - destruct fuel as [|fuel]; [lia|].
    cbn [WaitUntilHealthy_loop]. rewrite Nat.add_0_r in Hk. rewrite Hk.
    destruct answer as [[|]|e]; try reflexivity. congruence.
  - destruct fuel as [|fuel]; [lia|].
    cbn [WaitUntilHealthy_loop].
    rewrite <- (Nat.add_0_r start) at 1. rewrite (Hbefore 0 ltac:(lia)).
    rewrite (IH fuel (S start)); [reflexivity | | | lia].
    + intros i Hi. replace (S start + i) with (start + S i) by lia.
      apply Hbefore. lia.
    + now replace (S start + k) with (start + S k) by lia.
Qed.

(** X10. Outside dry mode [WaitUntilHealthy._execute] polls until the first
    evaluation that does not return False: after [k] evaluations that
    returned False, each followed by a sleep of 3 seconds, the evaluation
    number [k + 1] ends the run, with success when it returned True and with
    its exception when it raised; no evaluation or sleep follows. *)
Theorem WaitUntilHealthy_ends_at_first_healthy_poll :
  forall (name : string) (healthy : nat -> outcome bool) (answer : outcome bool)
         (k fuel : nat),
    (forall i, i < k -> healthy i = Returned false) ->
    healthy k = answer ->
    answer <> Returned false ->
    k < fuel ->
    WaitUntilHealthy_execute false name (Returned tt) healthy fuel
    = (FindElb name :: polls k, Some (loop_result answer)).
Proof.
  intros name healthy answer k fuel Hbefore Hk Hanswer Hfuel.
  unfold WaitUntilHealthy_execute.
  now rewrite (WaitUntilHealthy_loop_first_answer healthy answer Hanswer
                 k fuel 0 Hbefore Hk Hfuel).
Qed.

Lemma WaitUntilHealthy_ends_at_first_healthy_poll_witness :
  WaitUntilHealthy_execute false "prod" (Returned tt)
    (fun n => Returned (2 <=? n)) 10
  = (FindElb "prod" :: polls 2, Some (loop_result (Returned true))).
Proof.
  refine (WaitUntilHealthy_ends_at_first_healthy_poll "prod"
            (fun n => Returned (2 <=? n)) (Returned true) 2 10 _ eq_refl _ _).
  - intros i Hi. destruct (Nat.leb_spec 2 i); [lia | reflexivity].
  - discriminate.
  - lia.
Defined.

(** The number of instances in service in a listing. *)
Definition in_service (instance_list : list string) : nat :=
  count_occ string_dec instance_list "InService".

Lemma is_healthy_int_target (instance_list : list string) (n : Z) :
  _is_healthy instance_list (CountInt n)
  = Some (n <=? Z.of_nat (in_service instance_list))%Z.
Proof. reflexivity. Qed.

(** X11. With an integer target [n], where [instances k] is the listing of
    the ELB at the evaluation number [k]: a target of zero or less ends the
    run at the first evaluation, in dry mode or not; outside dry mode, while
    fewer than [n] instances are in service the run goes on, and it ends
    with success at the first evaluation that finds [n] or more in
    service. *)
Theorem WaitUntilHealthy_integer_target :
  forall (name : string) (n : Z) (instances : nat -> list string)
         (healthy : nat -> outcome bool),
    (forall k, option_map Returned (_is_healthy (instances k) (CountInt n))
               = Some (healthy k)) ->
    ((n <= 0)%Z ->
     forall _dry fuel,
       WaitUntilHealthy_execute _dry name (Returned tt) healthy (S fuel)
       = ([FindElb name; GetInstanceHealth], Some (Returned tt)))
    /\ ((forall k, (Z.of_nat (in_service (instances k)) < n)%Z) ->
        forall fuel,
          snd (WaitUntilHealthy_execute false name (Returned tt) healthy fuel)
          = None
          /\ evaluations
               (fst (WaitUntilHealthy_execute false name (Returned tt)
                       healthy fuel)) = fuel)
    /\ (forall k fuel,
          (forall i, i < k -> (Z.of_nat (in_service (instances i)) < n)%Z) ->
          (n <= Z.of_nat (in_service (instances k)))%Z ->
          k < fuel ->
          WaitUntilHealthy_execute false name (Returned tt) healthy fuel
          = (FindElb name :: polls k, Some (Returned tt))).
Proof.
  intros name n instances healthy Hlink.
  assert (Hhealthy : forall k,
             healthy k = Returned (n <=? Z.of_nat (in_service (instances k)))%Z).
  { intros k. specialize (Hlink k). rewrite is_healthy_int_target in Hlink.
    simpl in Hlink. now injection Hlink as <-. }
  split; [|split].
  - intros Hn _dry fuel. unfold WaitUntilHealthy_execute.
    cbn [WaitUntilHealthy_loop]. rewrite Hhealthy.
    destruct (Z.leb_spec n (Z.of_nat (in_service (instances 0)))); [reflexivity|].
    lia.
  - intros Hlow fuel. unfold WaitUntilHealthy_execute.
    assert (Hfalse : forall k, healthy k = Returned false).
    { intros k. rewrite Hhealthy. f_equal. apply Z.leb_gt. apply Hlow. }
    destruct (WaitUntilHealthy_waits healthy fuel 0 Hfalse) as [Hr Hn].
    destruct (WaitUntilHealthy_loop false healthy fuel 0) as [tr r].
    simpl in *. split; [exact Hr | exact Hn].
  - intros k fuel Hbefore Hk Hfuel. unfold WaitUntilHealthy_execute.
    rewrite (WaitUntilHealthy_loop_first_answer healthy (Returned true)
               ltac:(discriminate) k fuel 0); [reflexivity | | | exact Hfuel].
    + intros i Hi. simpl. rewrite Hhealthy. f_equal. apply Z.leb_gt.
      now apply Hbefore.
    + simpl. rewrite Hhealthy. f_equal. now apply Z.leb_le.
Qed.

(** The two runs of the integration tests: a target of 0, then a target
    of 1 on a load balancer without instances. *)
Lemma WaitUntilHealthy_integer_target_witness :
  WaitUntilHealthy_execute false "kingpin-integration-test" (Returned tt)
    (fun _ => Returned true) 1
  = ([FindElb "kingpin-integration-test"; GetInstanceHealth], Some (Returned tt))
  /\ (forall fuel,
        snd (WaitUntilHealthy_execute false "kingpin-integration-test"
               (Returned tt) (fun _ => Returned false) fuel) = None
        /\ evaluations
             (fst (WaitUntilHealthy_execute false "kingpin-integration-test"
                     (Returned tt) (fun _ => Returned false) fuel)) = fuel).
Proof.
  split.
  - refine (proj1 (WaitUntilHealthy_integer_target "kingpin-integration-test" 0
                     (fun _ => []) (fun _ => Returned true) _) _ false 0).
    + intros k. reflexivity.
    + lia.
  - refine (proj1 (proj2 (WaitUntilHealthy_integer_target
                            "kingpin-integration-test" 1
                            (fun _ => []) (fun _ => Returned false) _)) _).
    + intros k. reflexivity.
    + intros k. simpl. lia.
Defined.

(** ** The register and deregister calls *)

Lemma In_repeat_eq (A : Type) (x y : A) (n : nat) : In y (repeat x n) -> y = x.
Proof. intros H. now apply repeat_spec in H. Qed.

(** X12. Whatever the mode and whatever the outside answers, the only calls
    [RegisterInstance._execute] makes are the lookup of the ELB and
    [register_instances] with the configured instances (a single id wrapped
    in a list), the latter only outside dry mode and after the lookup
    returned; [DeregisterInstance._execute] likewise with
    [deregister_instances].  When the lookup and the first call return, that
    one call is the only one. *)
Theorem register_calls_only_with_configured_instances :
  forall (_dry : bool) (elb : string) (instance_id : instance_id_option)
         (find_elb : outcome unit) (operation : nat -> outcome unit)
         (fuel : nat),
    Forall (fun c =>
              c = FindElb elb
              \/ (_dry = false
                  /\ (exists u, find_elb = Returned u)
                  /\ exists instances,
                       instances_of instance_id = Returned instances
                       /\ c = RegisterInstances instances))
           (fst (RegisterInstance_execute _dry elb instance_id find_elb
                   operation fuel))
    /\ Forall (fun c =>
                 c = FindElb elb
                 \/ (_dry = false
                     /\ (exists u, find_elb = Returned u)
                     /\ exists instances,
                          instances_of instance_id = Returned instances
                          /\ c = DeregisterInstances instances))
              (fst (DeregisterInstance_execute _dry elb instance_id find_elb
                      operation fuel))
    /\ (forall instances,
          instances_of instance_id = Returned instances ->
          operation 1 = Returned tt ->
          RegisterInstance_execute false elb instance_id (Returned tt)
            operation (S fuel)
          = ([FindElb elb; RegisterInstances instances], Some (Returned tt))
          /\ DeregisterInstance_execute false elb instance_id (Returned tt)
               operation (S fuel)
             = ([FindElb elb; DeregisterInstances instances], Some (Returned tt))).
Proof.
  intros _dry elb instance_id find_elb operation fuel.
  split; [|split].
  - unfold RegisterInstance_execute.
    destruct find_elb as [u|e]; [|repeat constructor].
    destruct (instances_of instance_id) as [instances|e] eqn:Hinst;
      [|repeat constructor].
    destruct _dry; cbn [negb]; [repeat constructor|].
    destruct (RegisterInstance_add operation fuel) as [attempts r].
    cbn [fst]. constructor; [now left|].
    apply Forall_forall. intros c Hc. apply In_repeat_eq in Hc.
    right. split; [reflexivity|]. split; [eauto|]. eauto.
  - unfold DeregisterInstance_execute.
    destruct find_elb as [u|e]; [|repeat constructor].
    destruct (instances_of instance_id) as [instances|e] eqn:Hinst;
      [|repeat constructor].
    destruct _dry; cbn [negb]; [repeat constructor|].
    destruct (DeregisterInstance_remove operation fuel) as [attempts r].
    cbn [fst]. constructor; [now left|].
    apply Forall_forall. intros c Hc. apply In_repeat_eq in Hc.
    right. split; [reflexivity|]. split; [eauto|]. eauto.
  - intros instances Hinst Hop.
    unfold RegisterInstance_execute, DeregisterInstance_execute,
      RegisterInstance_add, DeregisterInstance_remove, Retrying.retry.
    rewrite Hinst. cbn [negb Retrying.call]. rewrite Hop.
    split; reflexivity.
Qed.

Lemma register_calls_only_with_configured_instances_witness :
  RegisterInstance_execute false "prod" (IdStr "i-0abc") (Returned tt)
    (fun _ => Returned tt) 1
  = ([FindElb "prod"; RegisterInstances ["i-0abc"]], Some (Returned tt))
  /\ DeregisterInstance_execute false "prod" (IdStr "i-0abc") (Returned tt)
       (fun _ => Returned tt) 1
     = ([FindElb "prod"; DeregisterInstances ["i-0abc"]], Some (Returned tt)).
Proof.
  exact (proj2 (proj2 (register_calls_only_with_configured_instances
                         false "prod" (IdStr "i-0abc") (Returned tt)
                         (fun _ => Returned tt) 0))
           ["i-0abc"] eq_refl eq_refl).
Defined.

End ElbActors.

(** * packagecloud actors: listing, deleting and waiting *)

Module PackagecloudActors.

Import Packagecloud.

(** ** Definitions *)

(** ['/' in s] *)
Fixpoint has_slash (s : string) : bool :=
  match s with
  | String c s' => if Ascii.eqb c "/" then true else has_slash s'
  | EmptyString => false
  end.

(** Newest first: each entry is at least as recent as those after it. *)
Definition newer_or_same (v w : version_entry) : Prop :=
  (v_created_at w <= v_created_at v)%Z.

(** ** The file name of a package *)

Lemma append_one (a : string) (c : ascii) (b : string) :
  ((a ++ String c EmptyString) ++ b = a ++ String c b)%string.
Proof.
  induction a as [|x a IH]; simpl; [reflexivity | now rewrite IH].
Qed.

Lemma last_component_without_slash :
  forall (s current : string),
    has_slash s = false -> last_component s current = (current ++ s)%string.
Proof.
  induction s as [|c s IH]; intros current H; simpl in *.
  - induction current as [|x current IHc]; simpl; [reflexivity | now rewrite <- IHc].
  - destruct (Ascii.eqb c "/"); [discriminate|].
    rewrite (IH _ H). apply append_one.
Qed.

Lemma last_component_after_slash :
  forall (directory file current : string),
    has_slash file = false ->
    last_component (directory ++ String "/" file) current = file.
Proof.
  induction directory as [|c directory IH]; intros file current H; simpl.
  - now rewrite last_component_without_slash.
  - destruct (Ascii.eqb c "/"); now apply IH.
Qed.

Lemma last_component_has_no_slash :
  forall (s current : string),
    has_slash current = false -> has_slash (last_component s current) = false.
Proof.
  induction s as [|c s IH]; intros current H; simpl; [exact H|].
  destruct (Ascii.eqb c "/") eqn:Hc; [now apply IH|].
  apply IH. clear IH. induction current as [|x current IHc]; simpl in *.
  - now rewrite Hc.
  - destruct (Ascii.eqb x "/"); [discriminate | now apply IHc].
Qed.

(** X13. The file name that [_get_package_versions] takes from
    [package_html_url] is what follows the last ['/']: it holds no ['/'], for
    a URL [directory/file] it is [file], and for a URL without ['/'] it is
    the whole URL. *)
Theorem filename_is_last_component_of_url :
  forall (p : package),
    has_slash (v_filename (version_of p)) = false
    /\ (forall directory file,
          p_package_html_url p = (directory ++ String "/" file)%string ->
          has_slash file = false ->
          v_filename (version_of p) = file)
    /\ (has_slash (p_package_html_url p) = false ->
        v_filename (version_of p) = p_package_html_url p).
Proof.
  intros p. unfold version_of. cbn [v_filename]. split; [|split].
  - now apply last_component_has_no_slash.
  - intros directory file -> Hfile. now apply last_component_after_slash.
  - intros H. now rewrite last_component_without_slash.
Qed.

Lemma filename_is_last_component_of_url_witness :
  v_filename (version_of (Package "pkg" "1.0" 0 "ubuntu/trusty"
                            "/acct/test/packages/ubuntu/trusty/pkg_1.0.deb"))
  = "pkg_1.0.deb".
Proof.
  exact (proj1 (proj2 (filename_is_last_component_of_url
                         (Package "pkg" "1.0" 0 "ubuntu/trusty"
                            "/acct/test/packages/ubuntu/trusty/pkg_1.0.deb")))
           "/acct/test/packages/ubuntu/trusty" "pkg_1.0.deb" eq_refl eq_refl).
Defined.

(** ** The sorted list of versions *)

Lemma insert_newest_first_perm (v : version_entry) (sorted : list version_entry) :
  Permutation (insert_newest_first v sorted) (v :: sorted).
Proof.
  induction sorted as [|w rest IH]; simpl; [apply Permutation_refl|].
  destruct (v_created_at w <=? v_created_at v)%Z; [apply Permutation_refl|].
  apply (perm_trans (perm_skip w IH)). apply perm_swap.
Qed.

Lemma insert_newest_first_sorted (v : version_entry) (sorted : list version_entry) :
  StronglySorted newer_or_same sorted ->
  StronglySorted newer_or_same (insert_newest_first v sorted).
Proof.
  induction sorted as [|w rest IH]; intros Hsorted; simpl.
  - constructor; constructor.
  - apply StronglySorted_inv in Hsorted. destruct Hsorted as [Hrest Hw].
    destruct (Z.leb_spec (v_created_at w) (v_created_at v)) as [Hle | Hgt].
    + constructor; [constructor; assumption|].
      constructor; [exact Hle|].
      rewrite Forall_forall in *. intros x Hx. specialize (Hw x Hx).
      unfold newer_or_same in *. lia.
    + constructor; [now apply IH|].
      rewrite Forall_forall in *. intros x Hx.
      apply In_insert_newest_first in Hx. destruct Hx as [-> | Hx].
      * unfold newer_or_same. lia.
      * now apply Hw.
Qed.

(** X14. [_get_package_versions] returns exactly the listed packages of the
    given name, each once per listing, ordered by [created_at] from the
    newest to the oldest. *)
Theorem get_package_versions_newest_first :
  forall (name : string) (all_packages : list package),
    Permutation (_get_package_versions name all_packages)
                (map version_of (versions_in name all_packages))
    /\ StronglySorted newer_or_same (_get_package_versions name all_packages)
    /\ Forall (fun v => v_name v = name)
              (_get_package_versions name all_packages).
Proof.
  intros name all_packages. unfold _get_package_versions, versions_in.
  set (versions := map version_of
                     (filter (fun p => String.eqb (p_name p) name) all_packages)).
  assert (Hperm : Permutation (sort_newest_first versions) versions).
  { induction versions as [|v versions IH]; [constructor|].
    simpl. apply (perm_trans (insert_newest_first_perm _ _)).
    now apply perm_skip. }
  split; [exact Hperm|]. split.
  - induction versions as [|v versions IH]; [constructor|].
    simpl. apply insert_newest_first_sorted. apply IH.
    clear. induction versions as [|w versions IH]; [constructor|].
    simpl. apply (perm_trans (insert_newest_first_perm _ _)). now apply perm_skip.
  - apply Forall_forall. intros v Hv.
    apply (Permutation_in _ Hperm) in Hv. subst versions.
    apply in_map_iff in Hv. destruct Hv as [p [<- Hp]].
    apply filter_In in Hp. now apply String.eqb_eq.
Qed.

(** ** The names to go through *)

(** X15. [_get_packages_list_to_delete] raises what [re.compile] raises on
    the pattern; otherwise it returns, without repetition, exactly the names
    of the listed packages that the pattern matches. *)
Theorem packages_list_to_delete_unique_matching_names :
  forall (re_compile : string -> outcome (string -> bool))
         (packages_to_delete : string) (all_packages : list package),
    (forall e, re_compile packages_to_delete = Raised e ->
       _get_packages_list_to_delete re_compile packages_to_delete all_packages
       = Raised e)
    /\ (forall pattern_match,
          re_compile packages_to_delete = Returned pattern_match ->
          exists names,
            _get_packages_list_to_delete re_compile packages_to_delete
              all_packages = Returned names
            /\ NoDup names
            /\ forall name,
                 In name names <->
                 pattern_match name = true
                 /\ exists p, In p all_packages /\ p_name p = name).
Proof.
  intros re_compile packages_to_delete all_packages.
  unfold _get_packages_list_to_delete. split.
  - intros e ->. reflexivity.
  - intros pattern_match ->. eexists. split; [reflexivity|].
    split; [apply NoDup_nodup|].
    intros name. rewrite nodup_In, in_map_iff. split.
    + intros [p [<- Hp]]. apply filter_In in Hp. destruct Hp as [Hin Hmatch].
      split; [exact Hmatch | eauto].
    + intros [Hmatch [p [Hin <-]]]. exists p. split; [reflexivity|].
      apply filter_In. split; assumption.
Qed.

Lemma packages_list_to_delete_unique_matching_names_witness :
  exists names,
    _get_packages_list_to_delete literal_re_compile "deleteme" sample_packages
    = Returned names
    /\ NoDup names
    /\ forall name,
         In name names <->
         String.prefix "deleteme" name = true
         /\ exists p, In p sample_packages /\ p_name p = name.
Proof.
  exact (proj2 (packages_list_to_delete_unique_matching_names
                  literal_re_compile "deleteme" sample_packages)
           (String.prefix "deleteme") eq_refl).
Defined.

(** ** What a run without failure deletes *)

(** The delete call for a version. *)
Definition delete_call (repo : string) (v : version_entry) : call :=
  HttpDelete repo (v_distro_version v) (v_filename v).

(** Of a list of versions, sorted newest first, of which [number_in_repo]
    are counted: those at the head that are above [number_to_keep]. *)
Definition above_keep (number_to_keep number_in_repo : Z)
    (package_versions : list version_entry) : list version_entry :=
  firstn (Z.to_nat (number_in_repo - number_to_keep)) package_versions.

(** Over the names gone through: the newest versions of each that are above
    [number_to_keep]. *)
Definition selected (number_to_keep : Z) (all_packages : list package)
    (names : list string) : list version_entry :=
  flat_map (fun name =>
              let package_versions := _get_package_versions name all_packages in
              above_keep number_to_keep
                         (Z.of_nat (List.length package_versions))
                         package_versions)
           names.

(** The calls of a run that deletes [versions]: none in dry mode. *)
Definition delete_calls (_dry : bool) (repo : string)
    (versions : list version_entry) : list call :=
  if _dry then [] else map (delete_call repo) versions.

Lemma delete_calls_app (_dry : bool) (repo : string)
    (l l' : list version_entry) :
  delete_calls _dry repo (l ++ l')
  = delete_calls _dry repo l ++ delete_calls _dry repo l'.
Proof. unfold delete_calls. destruct _dry; [reflexivity | apply map_app]. Qed.

(** [_delete] with the names of the [set] gone through in the order that
    [iteration] gives them.  The source iterates a [set], whose order the
    language leaves open: [iteration] stands for any arrangement of the
    names.  [_delete] is the case where they come as listed. *)
Definition _delete_in_set_order (iteration : list string -> list string)
    (re_compile : string -> outcome (string -> bool))
    (now : nat -> Z) (http_delete : nat -> outcome unit)
    (_dry : bool) (repo : string) (older_than number_to_keep : Z)
    (packages_to_delete : string) (http_get : outcome (list package))
  : list call * outcome (list version_entry) :=
  match http_get with
  | Raised e => ([HttpGetPackages repo], Raised e)
  | Returned all_packages =>
      match _get_packages_list_to_delete re_compile packages_to_delete
              all_packages with
      | Raised e => ([HttpGetPackages repo], Raised e)
      | Returned packages_list_to_delete =>
          let (tr, r) :=
            delete_names now http_delete _dry repo older_than number_to_keep
              (iteration packages_list_to_delete) all_packages 1 [] in
          (HttpGetPackages repo :: tr, r)
      end
  end.

(** What is left of [number_in_repo] versions when those above
    [number_to_keep] are gone. *)
Definition kept (number_to_keep number_in_repo : Z) : Z :=
  Z.min number_in_repo (Z.max number_to_keep 0).

Section WithoutFailure.

Variable now : nat -> Z.
Variable http_delete : nat -> outcome unit.
Variable _dry : bool.
Variable repo : string.
Variable number_to_keep : Z.

Hypothesis deletes_succeed : forall pos, http_delete pos = Returned tt.

Lemma delete_versions_without_failure :
  forall (package_versions : list version_entry) (number_in_repo : Z)
         (pos : nat) (deleted_packages : list version_entry),
    delete_versions now http_delete _dry repo 0 number_to_keep
      package_versions number_in_repo pos deleted_packages
    = (delete_calls _dry repo
         (above_keep number_to_keep number_in_repo package_versions),
       Returned (deleted_packages
                 ++ above_keep number_to_keep number_in_repo package_versions)).
Proof.
  unfold above_keep.
  induction package_versions as [|package rest IH];
    intros number_in_repo pos deleted_packages.
  - rewrite firstn_nil, app_nil_r. now destruct _dry.
  - cbn [delete_versions].
    destruct (Z.leb_spec number_in_repo number_to_keep) as [Hle | Hgt].
    + replace (Z.to_nat (number_in_repo - number_to_keep)) with 0 by lia.
      cbn [firstn]. rewrite app_nil_r. now destruct _dry.
    + replace (Z.to_nat (number_in_repo - number_to_keep))
        with (S (Z.to_nat (number_in_repo - 1 - number_to_keep))) by lia.
      cbn [firstn Z.eqb negb andb List.length app]. rewrite Nat.add_0_r.
      unfold delete_calls in *. destruct _dry.
      * rewrite IH. cbn [app]. now rewrite <- app_assoc.
      * rewrite deletes_succeed, IH. cbn [app map]. now rewrite <- app_assoc.
Qed.

Lemma delete_names_without_failure (all_packages : list package) :
  forall (names : list string) (pos : nat) (deleted_packages : list version_entry),
    delete_names now http_delete _dry repo 0 number_to_keep names all_packages
      pos deleted_packages
    = (delete_calls _dry repo (selected number_to_keep all_packages names),
       Returned (deleted_packages ++ selected number_to_keep all_packages names)).
Proof.
  induction names as [|name names IH]; intros pos deleted_packages.
  - cbn [delete_names selected flat_map]. rewrite app_nil_r. now destruct _dry.
  - cbn [delete_names]. rewrite delete_versions_without_failure, IH.
    unfold selected. cbn [flat_map].
    now rewrite delete_calls_app, <- app_assoc.
Qed.

End WithoutFailure.

Lemma get_package_versions_from_listing (name : string)
    (all_packages : list package) (v : version_entry) :
  In v (_get_package_versions name all_packages) ->
  exists q, In q all_packages /\ p_name q = name /\ v = version_of q.
Proof.
  unfold _get_package_versions. rewrite In_sort_newest_first, in_map_iff.
  intros [q [<- Hq]]. apply filter_In in Hq. destruct Hq as [Hin Hname].
  exists q. split; [exact Hin|]. split; [now apply String.eqb_eq | reflexivity].
Qed.

Lemma deleted_paths_delete_calls (repo : string) (versions : list version_entry) :
  deleted_paths (delete_calls false repo versions) = map v_path versions.
Proof.
  unfold delete_calls.
  induction versions as [|v versions IH]; [reflexivity|].
  simpl. now rewrite IH.
Qed.

Lemma delete_in_listed_order (re_compile : string -> outcome (string -> bool))
    (now : nat -> Z) (http_delete : nat -> outcome unit)
    (_dry : bool) (repo : string) (older_than number_to_keep : Z)
    (packages_to_delete : string) (http_get : outcome (list package)) :
  _delete re_compile now http_delete _dry repo older_than number_to_keep
    packages_to_delete http_get
  = _delete_in_set_order (fun names => names) re_compile now http_delete _dry
      repo older_than number_to_keep packages_to_delete http_get.
Proof. reflexivity. Qed.

Lemma sort_newest_first_perm (versions : list version_entry) :
  Permutation (sort_newest_first versions) versions.
Proof.
  induction versions as [|v versions IH]; [constructor|].
  simpl. apply (perm_trans (insert_newest_first_perm _ _)).
  now apply perm_skip.
Qed.

Lemma NoDup_firstn (A : Type) (n : nat) (l : list A) :
  NoDup l -> NoDup (firstn n l).
Proof.
  intros H. rewrite <- (firstn_skipn n l) in H.
  now apply NoDup_app_remove_r in H.
Qed.

Lemma NoDup_map_filter (A B : Type) (f : A -> B) (g : A -> bool) (l : list A) :
  NoDup (map f l) -> NoDup (map f (filter g l)).
Proof.
  induction l as [|a l IH]; intros H; [constructor|].
  simpl in H. apply NoDup_cons_iff in H. destruct H as [Ha Hl].
  simpl. destruct (g a); [|now apply IH].
  simpl. constructor; [|now apply IH].
  intros Hin. apply Ha. apply in_map_iff in Hin.
  destruct Hin as [b [Hb Hin]]. apply filter_In in Hin.
  apply in_map_iff. exists b. tauto.
Qed.

Lemma In_above_keep (number_to_keep number_in_repo : Z)
    (package_versions : list version_entry) (v : version_entry) :
  In v (above_keep number_to_keep number_in_repo package_versions) ->
  In v package_versions.
Proof.
  unfold above_keep. intros H.
  rewrite <- (firstn_skipn (Z.to_nat (number_in_repo - number_to_keep))
                package_versions).
  apply in_or_app. now left.
Qed.

(** The files of the versions of one name that are above [number_to_keep]
    are distinct when the files of the listing are. *)
Lemma NoDup_paths_above_keep (number_to_keep : Z) (name : string)
    (all_packages : list package) :
  NoDup (map path_of all_packages) ->
  NoDup (map v_path
           (above_keep number_to_keep
              (Z.of_nat (List.length (_get_package_versions name all_packages)))
              (_get_package_versions name all_packages))).
Proof.
  intros Hfiles. unfold above_keep. rewrite <- firstn_map.
  apply NoDup_firstn.
  apply (Permutation_NoDup
           (l := map path_of (versions_in name all_packages)));
    [|now apply NoDup_paths_versions_in].
  unfold _get_package_versions, versions_in.
  apply Permutation_sym.
  apply (perm_trans (Permutation_map v_path (sort_newest_first_perm _))).
  rewrite map_map. apply Permutation_refl.
Qed.

(** The versions selected over a list of distinct names, taken name by
    name. *)
Lemma selected_of_name (number_to_keep : Z) (all_packages : list package)
    (name : string) :
  forall names : list string,
    NoDup names ->
    filter (fun v => String.eqb (v_name v) name)
           (selected number_to_keep all_packages names)
    = if in_dec string_dec name names
      then above_keep number_to_keep
             (Z.of_nat (List.length (_get_package_versions name all_packages)))
             (_get_package_versions name all_packages)
      else [].
Proof.
  assert (Hname : forall other v,
            In v (above_keep number_to_keep
                    (Z.of_nat (List.length (_get_package_versions other all_packages)))
                    (_get_package_versions other all_packages)) ->
            v_name v = other).
  { intros other v Hv. apply In_above_keep in Hv.
    apply get_package_versions_from_listing in Hv.
    destruct Hv as [q [_ [Hq ->]]]. exact Hq. }
  induction names as [|first rest IH]; intros Hnames; [reflexivity|].
  apply NoDup_cons_iff in Hnames. destruct Hnames as [Hfirst Hrest].
  unfold selected in *. cbn [flat_map]. rewrite filter_app, (IH Hrest).
  destruct (in_dec string_dec name (first :: rest)) as [Hin | Hout].
  - destruct Hin as [-> | Hin].
    + destruct (in_dec string_dec name rest) as [Hin | _]; [contradiction|].
      rewrite app_nil_r. apply forallb_filter_id. apply forallb_forall.
      intros v Hv. apply String.eqb_eq. now apply Hname.
    + destruct (in_dec string_dec name rest) as [_ | Hout]; [|contradiction].
      rewrite filter_none; [reflexivity|].
      intros v Hv. apply String.eqb_neq. rewrite (Hname first v Hv).
      intros ->. contradiction.
  - destruct (in_dec string_dec name rest) as [Hin | _];
      [elim Hout; now right|].
    rewrite app_nil_r. apply filter_none.
    intros v Hv. apply String.eqb_neq. rewrite (Hname first v Hv).
    intros ->. apply Hout. now left.
Qed.

(** With distinct files, the listed versions of a name that the deletion
    of [selected] hits are as many as the selected versions of that name. *)
Lemma hit_by_selected (number_to_keep : Z) (all_packages : list package)
    (names : list string) (name : string) :
  NoDup (map path_of all_packages) ->
  NoDup names ->
  List.length
    (filter (hit_by (map v_path (selected number_to_keep all_packages names)))
            (versions_in name all_packages))
  = List.length
      (filter (fun v => String.eqb (v_name v) name)
              (selected number_to_keep all_packages names)).
Proof.
  intros Hfiles Hnames.
  rewrite <- (length_map path_of), <- (length_map v_path).
  apply Permutation_length, NoDup_Permutation.
  - apply NoDup_map_filter. now apply NoDup_paths_versions_in.
  - rewrite (selected_of_name _ _ _ names Hnames).
    destruct (in_dec string_dec name names); [|constructor].
    now apply NoDup_paths_above_keep.
  - assert (Hsel : forall v,
              In v (selected number_to_keep all_packages names) ->
              exists q, In q all_packages /\ p_name q = v_name v
                        /\ v = version_of q).
    { intros v Hv. unfold selected in Hv. apply in_flat_map in Hv.
      destruct Hv as [other [_ Hv]]. apply In_above_keep in Hv.
      apply get_package_versions_from_listing in Hv.
      destruct Hv as [q [Hq [Hname ->]]]. exists q. auto. }
    intros x. rewrite !in_map_iff. split.
    + intros [p [<- Hp]]. apply filter_In in Hp. destruct Hp as [Hp Hhit].
      apply filter_In in Hp. destruct Hp as [Hp Hname].
      apply String.eqb_eq in Hname.
      apply existsb_path, in_map_iff in Hhit. destruct Hhit as [v [Hpath Hv]].
      exists v. split; [exact Hpath|]. apply filter_In. split; [exact Hv|].
      destruct (Hsel v Hv) as [q [Hq [Hqname ->]]].
      assert (q = p) by (now apply (path_of_injective all_packages)).
      subst q. apply String.eqb_eq. now rewrite <- Hqname.
    + intros [v [<- Hv]]. apply filter_In in Hv. destruct Hv as [Hv Hname].
      apply String.eqb_eq in Hname.
      destruct (Hsel v Hv) as [q [Hq [Hqname ->]]].
      exists q. split; [reflexivity|]. apply filter_In. split.
      * apply filter_In. split; [exact Hq|]. apply String.eqb_eq. congruence.
      * apply existsb_path, in_map_iff. now exists (version_of q).
Qed.

(** X16. [_delete] without an age limit ([older_than] 0, as [Delete] calls
    it), on a listing it could fetch in which each file occurs once, with a
    pattern that compiles and delete calls that all succeed, in whatever
    order the names of the [set] are gone through: after a run that is not
    dry, of every package whose name the pattern matches exactly
    [min(number of versions listed, max(number_to_keep, 0))] versions are
    left, and every package whose name it does not match is left whole; and
    the list that the run returns, dry or not, has as many entries of each
    name as that leaves out. *)
Theorem delete_leaves_exactly_number_to_keep :
  forall (iteration : list string -> list string)
         (re_compile : string -> outcome (string -> bool))
         (now : nat -> Z) (http_delete : nat -> outcome unit)
         (repo : string) (number_to_keep : Z)
         (packages_to_delete : string) (all_packages : list package)
         (pattern_match : string -> bool) (name : string),
    (forall names, Permutation (iteration names) names) ->
    NoDup (map path_of all_packages) ->
    (forall pos, http_delete pos = Returned tt) ->
    re_compile packages_to_delete = Returned pattern_match ->
    (Z.of_nat
       (List.length
          (versions_in name
             (repo_after all_packages
                (fst (_delete_in_set_order iteration re_compile now http_delete
                        false repo 0 number_to_keep packages_to_delete
                        (Returned all_packages))))))
     = if pattern_match name
       then kept number_to_keep
              (Z.of_nat (List.length (versions_in name all_packages)))
       else Z.of_nat (List.length (versions_in name all_packages)))%Z
    /\ forall _dry,
         exists deleted_packages,
           snd (_delete_in_set_order iteration re_compile now http_delete
                  _dry repo 0 number_to_keep packages_to_delete
                  (Returned all_packages))
           = Returned deleted_packages
           /\ (Z.of_nat
                 (List.length
                    (filter (fun v => String.eqb (v_name v) name)
                            deleted_packages))
               = if pattern_match name
                 then Z.of_nat (List.length (versions_in name all_packages))
                      - kept number_to_keep
                          (Z.of_nat (List.length (versions_in name all_packages)))
                 else 0)%Z.
Proof.
  intros iteration re_compile now http_delete repo number_to_keep
         packages_to_delete all_packages pattern_match name
         Horder Hfiles Hdel Hre.
  unfold _delete_in_set_order, _get_packages_list_to_delete. rewrite Hre.
  set (matching := nodup string_dec
                     (map p_name (filter (fun p => pattern_match (p_name p))
                                         all_packages))).
  assert (Hnames : NoDup (iteration matching)).
  { apply (Permutation_NoDup (Permutation_sym (Horder matching))).
    apply NoDup_nodup. }
  assert (Hin : In name (iteration matching)
                <-> pattern_match name = true
                    /\ versions_in name all_packages <> []).
  { split.
    - intros H. apply (Permutation_in _ (Horder matching)) in H.
      unfold matching in H. apply nodup_In, in_map_iff in H.
      destruct H as [p [<- Hp]]. apply filter_In in Hp. destruct Hp as [Hp Hm].
      split; [exact Hm|]. intros Hnone.
      assert (Hv : In p (versions_in (p_name p) all_packages))
        by (apply filter_In; split; [exact Hp | apply String.eqb_refl]).
      rewrite Hnone in Hv. destruct Hv.
    - intros [Hm Hsome].
      apply (Permutation_in _ (Permutation_sym (Horder matching))).
      unfold matching. apply nodup_In.
      destruct (versions_in name all_packages) as [|p l] eqn:Hv;
        [now elim Hsome|].
      assert (Hp : In p (versions_in name all_packages))
        by (rewrite Hv; now left).
      apply filter_In in Hp. destruct Hp as [Hp Hname].
      apply String.eqb_eq in Hname. subst name.
      apply in_map, filter_In. split; assumption. }
  assert (Hcount :
            (Z.of_nat
               (List.length
                  (filter (fun v => String.eqb (v_name v) name)
                     (selected number_to_keep all_packages (iteration matching))))
             = if pattern_match name
               then Z.of_nat (List.length (versions_in name all_packages))
                    - kept number_to_keep
                        (Z.of_nat (List.length (versions_in name all_packages)))
               else 0)%Z).
  { rewrite (selected_of_name _ _ _ _ Hnames). unfold kept.
    destruct (in_dec string_dec name (iteration matching)) as [H | H].
    - apply Hin in H. destruct H as [-> _].
      unfold above_keep. rewrite length_firstn, length_get_package_versions.
      lia.
    - destruct (pattern_match name); [|reflexivity].
      destruct (versions_in name all_packages) eqn:Hv.
      + simpl. lia.
      + elim H. apply Hin. split; [reflexivity|]. rewrite ?Hv. discriminate. }
  split.
  - rewrite (delete_names_without_failure now http_delete false repo
               number_to_keep Hdel all_packages).
    cbv beta iota. cbn [fst]. rewrite versions_in_repo_after.
    cbn [deleted_paths]. rewrite deleted_paths_delete_calls.
    pose proof (filter_length
                  (hit_by (map v_path
                     (selected number_to_keep all_packages (iteration matching))))
                  (versions_in name all_packages)) as Hsplit.
    pose proof (hit_by_selected number_to_keep all_packages (iteration matching)
                  name Hfiles Hnames) as Hhit.
    unfold kept in *. destruct (pattern_match name); lia.
  - intros _dry.
    rewrite (delete_names_without_failure now http_delete _dry repo
               number_to_keep Hdel all_packages).
    cbn [snd app]. eexists. split; [reflexivity | exact Hcount].
Qed.

(** Two names match, gone through in the reverse of the order of listing;
    one version is to be kept: of the three versions of the package one is
    left. *)
Lemma delete_leaves_exactly_number_to_keep_witness :
  Z.of_nat
    (List.length
       (versions_in "deleteme"
          (repo_after sample_packages
             (fst (_delete_in_set_order (@rev string) literal_re_compile
                     (fun _ => 0%Z) (fun _ => Returned tt) false "test" 0 1
                     EmptyString (Returned sample_packages))))))
  = 1%Z.
Proof.
  exact (proj1 (delete_leaves_exactly_number_to_keep (@rev string)
                  literal_re_compile (fun _ => 0%Z) (fun _ => Returned tt)
                  "test" 1 EmptyString sample_packages
                  (String.prefix EmptyString) "deleteme"
                  (fun names => Permutation_sym (Permutation_rev names))
                  sample_packages_distinct (fun _ => eq_refl) eq_refl)).
Defined.

(** That run: the names come as [keepme], [deleteme]; the one version of
    the first is kept, and of the second the two newest are deleted. *)
Example delete_in_reverse_order :
  _delete_in_set_order (@rev string) literal_re_compile
    (fun _ => 0%Z) (fun _ => Returned tt) false "test" 0 1
    EmptyString (Returned sample_packages)
  = ([HttpGetPackages "test";
      HttpDelete "test" "ubuntu/trusty" "deleteme_1.2.deb";
      HttpDelete "test" "ubuntu/trusty" "deleteme_1.1.deb"],
     Returned
       [VersionEntry 3000000 "ubuntu/trusty" "deleteme_1.2.deb" "deleteme";
        VersionEntry 2000000 "ubuntu/trusty" "deleteme_1.1.deb" "deleteme"]).
Proof. reflexivity. Qed.

Lemma version_in_get_package_versions (p : package) (all_packages : list package) :
  In p all_packages ->
  In (version_of p) (_get_package_versions (p_name p) all_packages).
Proof.
  intros Hp. unfold _get_package_versions.
  apply In_sort_newest_first, in_map, filter_In.
  split; [exact Hp | apply String.eqb_refl].
Qed.

(** X17. After a [_delete] that is not a dry run, with [older_than] 0, a
    [number_to_keep] of zero (the default) or less, and calls that all
    succeed, no package whose name the pattern matches is left in the
    repository. *)
Theorem delete_with_nothing_to_keep_removes_every_match :
  forall (re_compile : string -> outcome (string -> bool))
         (now : nat -> Z) (http_delete : nat -> outcome unit)
         (repo : string) (number_to_keep : Z)
         (packages_to_delete : string) (all_packages : list package)
         (pattern_match : string -> bool),
    (forall pos, http_delete pos = Returned tt) ->
    re_compile packages_to_delete = Returned pattern_match ->
    (number_to_keep <= 0)%Z ->
    forall p,
      In p (repo_after all_packages
              (fst (_delete re_compile now http_delete false repo 0
                      number_to_keep packages_to_delete
                      (Returned all_packages)))) ->
      pattern_match (p_name p) = false.
Proof.
  intros re_compile now http_delete repo number_to_keep packages_to_delete
         all_packages pattern_match Hdel Hre Hkeep p Hp.
  destruct (pattern_match (p_name p)) eqn:Hmatch; [exfalso | reflexivity].
  unfold _delete, _get_packages_list_to_delete in Hp. rewrite Hre in Hp.
  rewrite (delete_names_without_failure now http_delete false repo
             number_to_keep Hdel all_packages) in Hp.
  unfold repo_after in Hp. apply filter_In in Hp. destruct Hp as [Hall Hleft].
  apply negb_true_iff in Hleft.
  cbn [fst deleted_paths] in Hleft. rewrite deleted_paths_delete_calls in Hleft.
  apply not_true_iff_false in Hleft. apply Hleft.
  apply existsb_path, in_map_iff. exists (version_of p). split; [reflexivity|].
  unfold selected. apply in_flat_map. exists (p_name p). split.
  - apply nodup_In, in_map, filter_In. split; assumption.
  - cbv zeta. unfold above_keep. rewrite firstn_all2 by lia.
    now apply version_in_get_package_versions.
Qed.

Lemma delete_with_nothing_to_keep_removes_every_match_witness :
  String.prefix "deleteme"
    (p_name (Package "keepme" "0.1" 1500000 "ubuntu/trusty"
               "/acct/test/packages/ubuntu/trusty/keepme_0.1.deb"))
  = false.
Proof.
  refine (delete_with_nothing_to_keep_removes_every_match literal_re_compile
            (fun _ => 0%Z) (fun _ => Returned tt) "test" 0 "deleteme"
            sample_packages (String.prefix "deleteme")
            (fun _ => eq_refl) eq_refl _
            (Package "keepme" "0.1" 1500000 "ubuntu/trusty"
               "/acct/test/packages/ubuntu/trusty/keepme_0.1.deb")
            (or_introl eq_refl)).
  lia.
Defined.

(** The repository of the examples after that run: only the package that
    the pattern does not match is left. *)
Example delete_everything_matching :
  repo_after sample_packages
    (fst (_delete literal_re_compile (fun _ => 0%Z) (fun _ => Returned tt)
            false "test" 0 0 "deleteme" (Returned sample_packages)))
  = [Package "keepme" "0.1" 1500000 "ubuntu/trusty"
       "/acct/test/packages/ubuntu/trusty/keepme_0.1.deb"].
Proof. reflexivity. Qed.

(** ** The age limit *)

Lemma In_deleted_paths (tr : list call) (repo distro_version filename : string) :
  In (HttpDelete repo distro_version filename) tr ->
  In (distro_version, filename) (deleted_paths tr).
Proof.
  induction tr as [|c tr IH]; [intros []|].
  intros [-> | H]; [now left|].
  destruct c; simpl; auto.
Qed.

Section AgeLimit.

Variable now : nat -> Z.
Variable http_delete : nat -> outcome unit.
Variable _dry : bool.
Variable repo : string.
Variable older_than : Z.
Variable number_to_keep : Z.

Hypothesis age_limit : older_than <> 0%Z.

(** At some reading of the clock, what [now()] gave was more than
    [older_than] seconds past the [created_at] of the version. *)
Definition past_the_limit (v : version_entry) : Prop :=
  exists pos, (older_than * 1000000 < now pos - v_created_at v)%Z.

Lemma delete_versions_past_the_limit :
  forall (package_versions : list version_entry) (number_in_repo : Z)
         (pos : nat) (deleted_packages : list version_entry),
    (forall x,
        In x (deleted_paths
                (fst (delete_versions now http_delete _dry repo older_than
                        number_to_keep package_versions number_in_repo pos
                        deleted_packages))) ->
        exists v, In v package_versions /\ x = v_path v /\ past_the_limit v)
    /\ (forall deleted,
          snd (delete_versions now http_delete _dry repo older_than
                 number_to_keep package_versions number_in_repo pos
                 deleted_packages) = Returned deleted ->
          forall v, In v deleted ->
                    In v deleted_packages
                    \/ (In v package_versions /\ past_the_limit v)).
Proof.
  induction package_versions as [|package rest IH];
    intros number_in_repo pos deleted_packages.
  - split; [intros x []|]. intros deleted H v Hv. injection H as <-. now left.
  - cbn [delete_versions].
    destruct (number_in_repo <=? number_to_keep)%Z.
    { split; [intros x []|]. intros deleted H v Hv. injection H as <-. now left. }
    destruct (Z.eqb_spec older_than 0) as [Hzero | _]; [contradiction|].
    cbn [negb andb List.length].
    destruct (Z.leb_spec (now pos - v_created_at package) (older_than * 1000000))
      as [Hyoung | Hold].
    + destruct (IH number_in_repo (S pos) deleted_packages) as [IHp IHd].
      destruct (delete_versions now http_delete _dry repo older_than
                  number_to_keep rest number_in_repo (S pos) deleted_packages)
        as [tr r].
      cbn [fst snd deleted_paths] in *. split.
      * intros x Hx. destruct (IHp x Hx) as [v [Hv Hrest]].
        exists v. split; [now right | exact Hrest].
      * intros deleted H v Hv. destruct (IHd deleted H v Hv) as [Hin | [Hin Hage]];
          [now left | right; split; [now right | exact Hage]].
    + assert (Hpackage : past_the_limit package) by (exists pos; exact Hold).
      destruct _dry.
      * destruct (IH (number_in_repo - 1)%Z (pos + 1) (deleted_packages ++ [package]))
          as [IHp IHd].
        destruct (delete_versions now http_delete true repo older_than
                    number_to_keep rest (number_in_repo - 1) (pos + 1)
                    (deleted_packages ++ [package])) as [tr r].
        cbn [fst snd app deleted_paths] in *. split.
        -- intros x Hx. destruct (IHp x Hx) as [v [Hv Hrest]].
           exists v. split; [now right | exact Hrest].
        -- intros deleted H v Hv.
           destruct (IHd deleted H v Hv) as [Hin | [Hin Hage]].
           ++ apply in_app_or in Hin. destruct Hin as [Hin | [<- | []]];
                [now left | right; split; [now left | exact Hpackage]].
           ++ right. split; [now right | exact Hage].
      * destruct (http_delete (pos + 1)) as [u|e].
        -- destruct (IH (number_in_repo - 1)%Z (S (pos + 1))
                       (deleted_packages ++ [package])) as [IHp IHd].
           destruct (delete_versions now http_delete false repo older_than
                       number_to_keep rest (number_in_repo - 1) (S (pos + 1))
                       (deleted_packages ++ [package])) as [tr r].
           cbn [fst snd app deleted_paths] in *. split.
           ++ intros x [<- | Hx].
              ** exists package. split; [now left|]. split; [reflexivity | exact Hpackage].
              ** destruct (IHp x Hx) as [v [Hv Hrest]].
                 exists v. split; [now right | exact Hrest].
           ++ intros deleted H v Hv.
              destruct (IHd deleted H v Hv) as [Hin | [Hin Hage]].
              ** apply in_app_or in Hin. destruct Hin as [Hin | [<- | []]];
                   [now left | right; split; [now left | exact Hpackage]].
              ** right. split; [now right | exact Hage].
        -- cbn [fst snd app deleted_paths]. split; [|discriminate].
           intros x [<- | []].
           exists package. split; [now left|]. split; [reflexivity | exact Hpackage].
Qed.

Lemma delete_names_past_the_limit (all_packages : list package) :
  forall (names : list string) (pos : nat) (deleted_packages : list version_entry),
    (forall x,
        In x (deleted_paths
                (fst (delete_names now http_delete _dry repo older_than
                        number_to_keep names all_packages pos
                        deleted_packages))) ->
        exists q, In q all_packages /\ x = path_of q
                  /\ past_the_limit (version_of q))
    /\ (forall deleted,
          snd (delete_names now http_delete _dry repo older_than
                 number_to_keep names all_packages pos deleted_packages)
          = Returned deleted ->
          forall v, In v deleted ->
                    In v deleted_packages
                    \/ exists q, In q all_packages /\ v = version_of q
                                 /\ past_the_limit v).
Proof.
  induction names as [|name names IH]; intros pos deleted_packages.
  - split; [intros x []|]. intros deleted H v Hv. injection H as <-. now left.
  - cbn [delete_names].
    destruct (delete_versions_past_the_limit
                (_get_package_versions name all_packages)
                (Z.of_nat (List.length (_get_package_versions name all_packages)))
                pos deleted_packages) as [Hp Hd].
    assert (Hlisted : forall v,
               In v (_get_package_versions name all_packages) ->
               past_the_limit v ->
               exists q, In q all_packages /\ v = version_of q /\ past_the_limit v).
    { intros v Hv Hage.
      destruct (get_package_versions_from_listing name all_packages v Hv)
        as [q [Hq [_ Heq]]]. eauto. }
    destruct (delete_versions now http_delete _dry repo older_than
                number_to_keep (_get_package_versions name all_packages) _ pos
                deleted_packages) as [tr [deleted'|e]]; cbn [fst snd] in *.
    + destruct (IH (pos + List.length tr) deleted') as [IHp IHd].
      destruct (delete_names now http_delete _dry repo older_than
                  number_to_keep names all_packages (pos + List.length tr)
                  deleted') as [tr' r].
      cbn [fst snd] in *. split.
      * intros x Hx. rewrite deleted_paths_app in Hx.
        apply in_app_or in Hx. destruct Hx as [Hx | Hx]; [|now apply IHp].
        destruct (Hp x Hx) as [v [Hv [-> Hage]]].
        destruct (Hlisted v Hv Hage) as [q [Hq [-> _]]].
        exists q. split; [exact Hq|]. split; [reflexivity | exact Hage].
      * intros deleted H v Hv.
        destruct (IHd deleted H v Hv) as [Hin | Hq]; [|now right].
        destruct (Hd deleted' eq_refl v Hin) as [Hin' | [Hin' Hage]];
          [now left | right; now apply Hlisted].
    + split; [|discriminate].
      intros x Hx. destruct (Hp x Hx) as [v [Hv [-> Hage]]].
      destruct (Hlisted v Hv Hage) as [q [Hq [-> _]]].
      exists q. split; [exact Hq|]. split; [reflexivity | exact Hage].
Qed.

End AgeLimit.

(** X18. With an age limit ([older_than] not 0, as [DeleteByDate] calls
    it), [_delete] deletes a version only when a reading of the clock was
    more than [older_than] seconds past its [created_at]: every delete call
    is for the file of a listed package for which [now()], the local time
    of the host, exceeded by more than that the time that the [created_at]
    stamp writes, and so is every entry of the list it returns, in dry mode
    as well, whether or not a call fails on the way.  The two are naive
    [datetime]s, the stamp's in UTC: their difference is the age of the
    package on a host whose local time is UTC. *)
Theorem delete_by_date_compares_clock_with_created_at :
  forall (re_compile : string -> outcome (string -> bool))
         (now : nat -> Z) (http_delete : nat -> outcome unit)
         (_dry : bool) (repo : string) (older_than number_to_keep : Z)
         (packages_to_delete : string) (all_packages : list package),
    older_than <> 0%Z ->
    (forall repo' distro_version filename,
        In (HttpDelete repo' distro_version filename)
           (fst (_delete re_compile now http_delete _dry repo older_than
                   number_to_keep packages_to_delete (Returned all_packages))) ->
        exists q pos,
          In q all_packages /\ path_of q = (distro_version, filename)
          /\ (older_than * 1000000 < now pos - p_created_at q)%Z)
    /\ (forall deleted,
          snd (_delete re_compile now http_delete _dry repo older_than
                 number_to_keep packages_to_delete (Returned all_packages))
          = Returned deleted ->
          forall v, In v deleted ->
            exists q pos,
              In q all_packages /\ v = version_of q
              /\ (older_than * 1000000 < now pos - p_created_at q)%Z).
Proof.
  intros re_compile now http_delete _dry repo older_than number_to_keep
         packages_to_delete all_packages Hage.
  unfold _delete.
  destruct (_get_packages_list_to_delete re_compile packages_to_delete
              all_packages) as [names|e].
  - destruct (delete_names_past_the_limit now http_delete _dry repo older_than
                number_to_keep Hage all_packages names 1 []) as [Hp Hd].
    destruct (delete_names now http_delete _dry repo older_than number_to_keep
                names all_packages 1 []) as [tr r].
    cbn [fst snd] in *. split.
    + intros repo' distro_version filename [Hin | Hin]; [discriminate|].
      apply In_deleted_paths in Hin.
      destruct (Hp _ Hin) as [q [Hq [Hpath [pos Hold]]]].
      exists q, pos. split; [exact Hq|]. split; [now symmetry | exact Hold].
    + intros deleted H v Hv.
      destruct (Hd deleted H v Hv) as [[] | [q [Hq [-> [pos Hold]]]]].
      exists q, pos. split; [exact Hq|]. split; [reflexivity | exact Hold].
  - cbn [fst snd]. split; [|discriminate].
    intros repo' distro_version filename [Hin | []]. discriminate.
Qed.

(** With a clock that reads 2 500 000 and a limit of one second, only the
    version whose [created_at] is 1 000 000 is past the limit. *)
Example delete_by_date_run :
  _delete literal_re_compile (fun _ => 2500000%Z) (fun _ => Returned tt)
          false "test" 1 0 "deleteme" (Returned sample_packages)
  = ([HttpGetPackages "test"; ReadClock; ReadClock; ReadClock;
      HttpDelete "test" "ubuntu/trusty" "deleteme_1.0.deb"],
     Returned [VersionEntry 1000000 "ubuntu/trusty" "deleteme_1.0.deb" "deleteme"]).
Proof. reflexivity. Qed.

Lemma delete_by_date_compares_clock_with_created_at_witness :
  exists q pos,
    In q sample_packages
    /\ path_of q = ("ubuntu/trusty", "deleteme_1.0.deb")
    /\ (1 * 1000000 < (fun _ : nat => 2500000%Z) pos - p_created_at q)%Z.
Proof.
  refine (proj1 (delete_by_date_compares_clock_with_created_at literal_re_compile
                   (fun _ => 2500000%Z) (fun _ => Returned tt) false "test" 1 0
                   "deleteme" sample_packages _)
            "test" "ubuntu/trusty" "deleteme_1.0.deb" _).
  - discriminate.
  - simpl. auto 10.
Defined.

(** ** Constructors and [_execute] methods *)

(** [PackagecloudBase.__init__]: [base_init] is the outcome of
    [super().__init__] (kingpin.actors.base, not part of the sources);
    [ACCOUNT] and [TOKEN] are what [os.getenv] gave. *)
Definition PackagecloudBase_init (base_init : outcome unit)
    (ACCOUNT TOKEN : option string) : outcome unit :=
  match base_init with
  | Raised e => Raised e
  | Returned _ =>
      if negb (ElbActors.is_set ACCOUNT) then Raised InvalidCredentials
      else if negb (ElbActors.is_set TOKEN) then Raised InvalidCredentials
      else Returned tt
  end.

Section Constructors.

(** [re.compile]; what it raises is [re.error]. *)
Variable re_compile : string -> outcome (string -> bool).

(** [Delete.__init__]: [re.error] becomes [InvalidOptions]. *)
Definition Delete_init (base_init : outcome unit) (ACCOUNT TOKEN : option string)
    (packages_to_delete : string) : outcome unit :=
  match PackagecloudBase_init base_init ACCOUNT TOKEN with
  | Raised e => Raised e
  | Returned _ =>
      match re_compile packages_to_delete with
      | Raised _ => Raised InvalidOptions
      | Returned _ => Returned tt
      end
  end.

(** [DeleteByDate] defines no [__init__]: it has [PackagecloudBase]'s. *)
Definition DeleteByDate_init (base_init : outcome unit)
    (ACCOUNT TOKEN : option string) (packages_to_delete : string)
  : outcome unit :=
  PackagecloudBase_init base_init ACCOUNT TOKEN.


Variable now : nat -> Z.
Variable http_delete : nat -> outcome unit.


(** [DeleteByDate._execute] *)
Definition DeleteByDate_execute (_dry : bool) (repo : string)
    (older_than number_to_keep : Z) (packages_to_delete : string)
    (http_get : outcome (list package))
  : list call * outcome (list version_entry) :=
  _delete re_compile now http_delete _dry repo older_than number_to_keep
          packages_to_delete http_get.




(** X20. [DeleteByDate] does not check its pattern when it is constructed:
    with the credentials set and a pattern that does not compile, the
    constructor returns, and [_execute] raises the pattern's error only
    after it has listed the repository, with no delete call, where for the
    same pattern [Delete]'s constructor raises [InvalidOptions]. *)
Theorem DeleteByDate_finds_invalid_pattern_when_run :
  forall (ACCOUNT TOKEN : option string) (packages_to_delete : string) (e : exn),
    ElbActors.is_set ACCOUNT = true ->
    ElbActors.is_set TOKEN = true ->
    re_compile packages_to_delete = Raised e ->
    DeleteByDate_init (Returned tt) ACCOUNT TOKEN packages_to_delete
    = Returned tt
    /\ (forall _dry repo older_than number_to_keep all_packages,
          DeleteByDate_execute _dry repo older_than number_to_keep
            packages_to_delete (Returned all_packages)
          = ([HttpGetPackages repo], Raised e))
    /\ Delete_init (Returned tt) ACCOUNT TOKEN packages_to_delete
       = Raised InvalidOptions.
Proof.
  intros ACCOUNT TOKEN packages_to_delete e HA HT He.
  unfold DeleteByDate_init, Delete_init, PackagecloudBase_init.
  rewrite HA, HT, He. cbn [negb]. split; [reflexivity|]. split; [|reflexivity].
  intros _dry repo older_than number_to_keep all_packages.
  unfold DeleteByDate_execute, _delete, _get_packages_list_to_delete.
  now rewrite He.
Qed.

End Constructors.

(** A stand-in for [re.compile] that refuses the patterns with an open
    bracket and reads the others as literals. *)
Definition bracket_re_compile (pattern : string) : outcome (string -> bool) :=
  if String.eqb pattern "[" then Raised (ExternalError 0)
  else Returned (String.prefix pattern).


Lemma DeleteByDate_finds_invalid_pattern_when_run_witness :
  DeleteByDate_init (Returned tt) (Some "acct") (Some "t0ken") "[" = Returned tt
  /\ (forall _dry repo older_than number_to_keep all_packages,
        DeleteByDate_execute bracket_re_compile (fun _ => 0%Z)
          (fun _ => Returned tt) _dry repo older_than number_to_keep "["
          (Returned all_packages)
        = ([HttpGetPackages repo], Raised (ExternalError 0)))
  /\ Delete_init bracket_re_compile (Returned tt) (Some "acct") (Some "t0ken") "["
     = Raised InvalidOptions.
Proof.
  exact (DeleteByDate_finds_invalid_pattern_when_run bracket_re_compile
           (fun _ => 0%Z) (fun _ => Returned tt)
           (Some "acct") (Some "t0ken") "[" (ExternalError 0)
           eq_refl eq_refl eq_refl).
Defined.

(** ** Waiting for a package *)

(** [k] rounds of search and sleep, then the search that ends the loop. *)
Definition searches_until (repo : string) (sleep : Z) (k : nat) : list call :=
  concat (repeat [HttpGetPackages repo; Sleep sleep] k) ++ [HttpGetPackages repo].

Section Waiting.

Variable re_compile : string -> outcome (string -> bool).
Variable repo name version : string.
Variable sleep : Z.
Variable http_get : nat -> outcome (list package).
Variable name_match version_match : string -> bool.

Hypothesis name_compiles : re_compile name = Returned name_match.
Hypothesis version_compiles : re_compile version = Returned version_match.

(** The packages of a listing that match both patterns. *)
Definition matching (listing : list package) : list package :=
  filter (fun p => name_match (p_name p) && version_match (p_version p)) listing.

Lemma search_listing (k : nat) (listing : list package) :
  http_get k = Returned listing ->
  _search re_compile (http_get k) name version = Returned (matching listing).
Proof.
  intros H. unfold _search. now rewrite H, name_compiles, version_compiles.
Qed.

Lemma WaitForPackage_loop_first_match (listing : nat -> list package) :
  (forall i, http_get i = Returned (listing i)) ->
  forall (k fuel start : nat),
    (forall i, i < k -> matching (listing (start + i)) = []) ->
    matching (listing (start + k)) <> [] ->
    k < fuel ->
    WaitForPackage_loop re_compile repo name version sleep http_get fuel start
    = (searches_until repo sleep k,
       Some (Returned (matching (listing (start + k))))).
Proof.
  intros Hget. induction k as [|k IH]; intros fuel start Hbefore Hk Hfuel.
  - destruct fuel as [|fuel]; [lia|].
    cbn [WaitForPackage_loop]. rewrite (search_listing start _ (Hget start)).
    rewrite Nat.add_0_r in *.
    destruct (matching (listing start)); [congruence | reflexivity].
  - destruct fuel as [|fuel]; [lia|].
    cbn [WaitForPackage_loop]. rewrite (search_listing start _ (Hget start)).
    pose proof (Hbefore 0 ltac:(lia)) as H0. rewrite Nat.add_0_r in H0.
    rewrite H0. cbn [List.length Nat.ltb Nat.leb].
    rewrite (IH fuel (S start)).
    + replace (S start + k) with (start + S k) by lia. reflexivity.
    + intros i Hi. replace (S start + i) with (start + S i) by lia.
      apply Hbefore. lia.
    + now replace (S start + k) with (start + S k) by lia.
    + lia.
Qed.

End Waiting.

(** X21. [WaitForPackage._execute], with patterns that compile and a
    repository that can be listed: it searches again, after a sleep of the
    configured length, for as long as no listed package matches both the
    name and the version pattern; the first listing with a match ends the
    run, which returns all the packages of that listing that match both
    patterns, in the order of the listing.  The dry flag makes no
    difference. *)
Theorem WaitForPackage_returns_first_listing_with_a_match :
  forall (re_compile : string -> outcome (string -> bool))
         (_dry : bool) (repo name version : string) (sleep : Z)
         (http_get : nat -> outcome (list package))
         (name_match version_match : string -> bool)
         (listing : nat -> list package) (k fuel : nat),
    re_compile name = Returned name_match ->
    re_compile version = Returned version_match ->
    (forall i, http_get i = Returned (listing i)) ->
    (forall i, i < k -> matching name_match version_match (listing i) = []) ->
    matching name_match version_match (listing k) <> [] ->
    k < fuel ->
    WaitForPackage_execute re_compile _dry repo name version sleep http_get fuel
    = (searches_until repo sleep k,
       Some (Returned (matching name_match version_match (listing k)))).
Proof.
  intros re_compile _dry repo name version sleep http_get name_match
         version_match listing k fuel Hname Hversion Hget Hbefore Hk Hfuel.
  unfold WaitForPackage_execute.
  now rewrite (WaitForPackage_loop_first_match re_compile repo name version
                 sleep http_get name_match version_match Hname Hversion
                 listing Hget k fuel 0 Hbefore Hk Hfuel).
Qed.



(** The package appears at the third search. *)
Lemma WaitForPackage_returns_first_listing_with_a_match_witness :
  WaitForPackage_execute literal_re_compile true "test" "keepme" "0." 10
    (fun i => Returned (if i <? 2 then [] else sample_packages)) 5
  = (searches_until "test" 10 2,
     Some (Returned (matching (String.prefix "keepme") (String.prefix "0.")
                       sample_packages))).
Proof.
  refine (WaitForPackage_returns_first_listing_with_a_match literal_re_compile
            true "test" "keepme" "0." 10
            (fun i => Returned (if i <? 2 then [] else sample_packages))
            (String.prefix "keepme") (String.prefix "0.")
            (fun i => if i <? 2 then [] else sample_packages) 2 5
            eq_refl eq_refl (fun _ => eq_refl) _ _ _).
  - intros i Hi. destruct (Nat.ltb_spec i 2); [reflexivity | lia].
  - discriminate.
  - lia.
Defined.

Example WaitForPackage_third_search :
  WaitForPackage_execute literal_re_compile false "test" "keepme" "0." 10
    (fun i => Returned (if i <? 2 then [] else sample_packages)) 5
  = ([HttpGetPackages "test"; Sleep 10; HttpGetPackages "test"; Sleep 10;
      HttpGetPackages "test"],
     Some (Returned [Package "keepme" "0.1" 1500000 "ubuntu/trusty"
                       "/acct/test/packages/ubuntu/trusty/keepme_0.1.deb"])).
Proof. reflexivity. Qed.

End PackagecloudActors.
